(** * libqi: the type-erased value engine, the signature builder and the C
    object bindings.

    Embedded sources:
    - [src/libqimessaging/src/genericvalue.cpp]
      ([GenericValue::convert2], [GenericValue::convert],
      [GenericValue::convertCopy]);
    - [src/libqimessaging/qimessaging/metaobjectbuilder.hpp]
      (the [advertiseMethod] / [advertiseEvent] templates);
    - [src/libqimessaging/c/src/object_c.cpp]
      ([qiFutureCAdapter], [qi_object_call], [c_call],
      [qi_object_builder_register_method], [qi_object_builder_get_object]);
    - [src/test/test_messaging/test_messaging.cpp]
      ([ServiceHandler::onMessage], [main_client]).

    A [void*] storage handle is modelled as an address together with the
    finite tree of data found behind it, so that the recursion of the
    conversion functions (through wrapped values and list elements) is
    structural.  Allocation and release are recorded in an explicit state
    ([next] free address, set of [live] addresses, [log]).  Undefined
    behaviour of the C++ code (dereferencing a null pointer, reading storage
    of the wrong shape) is the result [Fault]. *)

From Stdlib Require Import ZArith Lia Ascii.
From stdpp Require Import base gmap strings list.
Local Open Scope Z_scope.
#[local] Set Warnings "-register-all,-clear-no-such-hyp,-abstract-large-number".

(** ** Type descriptors *)

(** [Type::Kind]: the enumerators the sources switch on ([Float], [Int],
    [List], [Object]) together with the remaining kinds of the taxonomy. *)
Module Kind.
Inductive t := Void | Int | Float | String | List | Map | Object | Dynamic | Unknown.

#[global] Instance eq_dec : EqDecision t.
Proof. solve_decision. Defined.
End Kind.

(** A [Type] instance.  [tptr] is the address of the instance (what
    [type == targetType] compares), [tinfo] the result of [info()] (two
    instances may describe the same effective type), and the shape carries
    what the concrete subclass ([TypeInt], [TypeFloat], [TypeList],
    [ObjectType]) knows. *)
Inductive QiType :=
| MkType (ptr : Z) (info : string) (shape : Shape)
with Shape :=
| ShInt (bits : Z) (signed : bool)
| ShFloat (prec : Z)
| ShList (elem : QiType)
| ShObject (parents : list (string * Z))
| ShOther (k : Kind.t).

Definition tptr (t : QiType) : Z := let 'MkType p _ _ := t in p.
Definition tinfo (t : QiType) : string := let 'MkType _ i _ := t in i.
Definition tshape (t : QiType) : Shape := let 'MkType _ _ s := t in s.

(** [Type::kind()]: fixed by the subclass. *)
Definition kind (t : QiType) : Kind.t :=
  match tshape t with
  | ShInt _ _ => Kind.Int
  | ShFloat _ => Kind.Float
  | ShList _ => Kind.List
  | ShObject _ => Kind.Object
  | ShOther k => k
  end.

(** [typeOf<GenericValue>()->info()] and [typeOf<GenericObject>()->info()]. *)
Definition genericValueInfo : string := "qi::GenericValue".
Definition genericObjectInfo : string := "qi::GenericObject".

(** Modelled from the spec: [ObjectType::inherits] is not part of the
    sources.  The descriptor of an object type lists its ancestors with the
    storage offset of each ancestor sub-object; the answer for a type that
    is not an ancestor is the sentinel [-1] the callers test for. *)
Fixpoint lookup_parent (parents : list (string * Z)) (i : string) : Z :=
  match parents with
  | [] => -1
  | (p, off) :: rest => if String.eqb p i then off else lookup_parent rest i
  end.

Definition inherits (parents : list (string * Z)) (other : QiType) : Z :=
  lookup_parent parents (tinfo other).

(** ** Scalars *)

(** The scalars [TypeInt] and [TypeFloat] hand over are [int64_t] and
    [double]; the conversions between the two in [convert2] are the
    implicit conversions of C++ at the calls of [set].  They are written
    out here on integers and on binary floating-point numbers [fm * 2^fe]
    (round to nearest, ties to even; the exponent range, infinities and
    NaN are not modelled). *)
Record Flt := MkFlt { fm : Z; fe : Z }.

Definition digits (m : Z) : Z := if m =? 0 then 0 else Z.log2 (Z.abs m) + 1.

(** [m / 2^d] rounded to the nearest integer, ties to even. *)
Definition rne (m d : Z) : Z :=
  let q := m / 2 ^ d in
  let r := m mod 2 ^ d in
  let half := 2 ^ (d - 1) in
  if r <? half then q
  else if half <? r then q + 1
  else if Z.even q then q else q + 1.

(** Rounding to a significand of [prec] bits. *)
Definition roundFlt (prec : Z) (f : Flt) : Flt :=
  let d := digits (fm f) - prec in
  if d <=? 0 then f else MkFlt (rne (fm f) d) (fe f + d).

(** The native integer of [bits] bits that an [int64_t] narrows to. *)
Definition wrapInt (bits : Z) (signed : bool) (z : Z) : Z :=
  if signed then (z + 2 ^ (bits - 1)) mod 2 ^ bits - 2 ^ (bits - 1)
  else z mod 2 ^ bits.

Definition inRange (bits : Z) (signed : bool) (z : Z) : Prop :=
  if signed then - 2 ^ (bits - 1) <= z < 2 ^ (bits - 1) else 0 <= z < 2 ^ bits.

(** The implicit conversion [int64_t -> double] at a call of
    [TypeFloat::set]. *)
Definition int64_to_double (z : Z) : Flt := roundFlt 53 (MkFlt z 0).

(** The implicit conversion [double -> int64_t] at a call of [TypeInt::set]:
    truncation toward zero; nothing is defined outside the range of
    [int64_t]. *)
Definition double_to_int64 (f : Flt) : option Z :=
  let z := if 0 <=? fe f then fm f * 2 ^ fe f else Z.quot (fm f) (2 ^ (- fe f)) in
  if (- 2 ^ 63 <=? z) && (z <? 2 ^ 63) then Some z else None.

(** ** Storage *)

(** What a [void*] points to.  [CValue] is a [GenericValue] object on the
    heap (the storage of the dynamic type), [CObject] a [GenericObject],
    [CStruct] the memory of a native object (offset to word). *)
Inductive Storage :=
| Null
| At (addr : Z) (c : Content)
with Content :=
| CInt (z : Z)
| CFloat (f : Flt)
| CString (s : string)
| CList (elemType : QiType) (elems : list Storage)
| CValue (ty : option QiType) (v : Storage)
| CObject (ty : option QiType) (v : Storage)
| CStruct (mem : gmap Z Z)
| COpaque.

(** [GenericValue]: the pair of a [Type*] (possibly null) and a [void*]. *)
Record GenericValue := GV { type : option QiType; value : Storage }.

(** [GenericValue()]. *)
Definition emptyValue : GenericValue := GV None Null.

(** The pointer [value + inheritOffset]: the same memory seen from [off]
    further on. *)
Definition shiftMem (off : Z) (mem : gmap Z Z) : gmap Z Z :=
  kmap (fun k => k - off) mem.

Definition offsetStorage (s : Storage) (off : Z) : Storage :=
  match s with
  | Null => if off =? 0 then Null else At off COpaque
  | At a (CStruct mem) => At (a + off) (CStruct (shiftMem off mem))
  | At a c => if off =? 0 then At a c else At (a + off) COpaque
  end.

(** Reading the word at offset [k] of the object a value views. *)
Definition readField (v : GenericValue) (k : Z) : option Z :=
  match value v with
  | At _ (CStruct mem) => mem !! k
  | _ => None
  end.

(** Every address of a storage tree. *)
Fixpoint addrs (s : Storage) : list Z :=
  match s with
  | Null => []
  | At a c =>
      a :: match c with
           | CList _ elems => concat (map addrs elems)
           | CValue _ v => addrs v
           | CObject _ v => addrs v
           | _ => []
           end
  end.

(** The data of a storage tree, addresses forgotten: two values are
    value-equal when their data agree.  A wrapped value with no type is the
    empty value, whatever its pointer. *)
Inductive Data :=
| DNull
| DInt (z : Z)
| DFloat (f : Flt)
| DString (s : string)
| DList (elemType : QiType) (elems : list Data)
| DValue (ty : option QiType) (v : Data)
| DObject (ty : option QiType) (v : Data)
| DStruct (mem : gmap Z Z)
| DOpaque.

Fixpoint dataOf (s : Storage) : Data :=
  match s with
  | Null => DNull
  | At _ c =>
      match c with
      | CInt z => DInt z
      | CFloat f => DFloat f
      | CString s => DString s
      | CList et elems => DList et (map dataOf elems)
      | CValue (Some t) v => DValue (Some t) (dataOf v)
      | CValue None _ => DValue None DNull
      | CObject (Some t) v => DObject (Some t) (dataOf v)
      | CObject None _ => DObject None DNull
      | CStruct mem => DStruct mem
      | COpaque => DOpaque
      end
  end.

(** ** State and effects *)

Record State := MkState { next : Z; live : gset Z; log : list string }.

Inductive Res (A : Type) :=
| Ok (a : A) (st : State)
| Fault (why : string).
Arguments Ok {A} a st.
Arguments Fault {A} why.

Definition M (A : Type) : Type := State -> Res A.

Definition ret {A} (a : A) : M A := fun st => Ok a st.
Definition fault {A} (why : string) : M A := fun _ => Fault why.
Definition bind {A B} (m : M A) (k : A -> M B) : M B :=
  fun st => match m st with Ok a st' => k a st' | Fault w => Fault w end.

Declare Scope qi_scope.
Delimit Scope qi_scope with qi.
Notation "x <- c1 ;; c2" := (bind c1 (fun x => c2))
  (at level 100, c1 at next level, right associativity) : qi_scope.
Notation "c1 ;; c2" := (bind c1 (fun _ => c2))
  (at level 100, right associativity) : qi_scope.
Local Open Scope qi_scope.

(** A loop over a container, threading an accumulator. *)
Definition foldM {A B} (f : B -> A -> M B) : list A -> B -> M B :=
  fix go (l : list A) (b : B) : M B :=
    match l with
    | [] => ret b
    | a :: l' => b' <- f b a ;; go l' b'
    end.

(** [new] / [malloc]: a fresh address, recorded as live. *)
Definition alloc (c : Content) : M Storage :=
  fun st => Ok (At (next st) c)
               (MkState (next st + 1) ({[ next st ]} ∪ live st) (log st)).

(** [qiLogWarning]. *)
Definition logWarning (msg : string) : M unit :=
  fun st => Ok tt (MkState (next st) (live st) (log st ++ [msg])).

(** ** The virtual interface of [Type] and [GenericValue]'s inline members

    These are declared in headers that are not part of the sources; each is
    modelled from the data model of the specification. *)

(** Modelled from the spec: [Type::initializeStorage] "allocates a
    zero-value instance and returns an opaque storage handle". *)
Definition zeroContent (t : QiType) : Content :=
  match tshape t with
  | ShInt _ _ => CInt 0
  | ShFloat _ => CFloat (MkFlt 0 0)
  | ShList elem => CList elem []
  | ShObject _ => CStruct ∅
  | ShOther Kind.String => CString EmptyString
  | ShOther Kind.Dynamic => CValue None Null
  | ShOther _ => COpaque
  end.

Definition initializeStorage (t : QiType) : M Storage := alloc (zeroContent t).

(** Modelled from the spec: [TypeInt::get] reads the stored native integer
    as an [int64_t]; [TypeInt::set] narrows an [int64_t] to the native
    integer of the type ("implicit widening/narrowing per native numeric
    semantics"). *)
Definition TypeInt_get (value : Storage) : M Z :=
  match value with
  | At _ (CInt z) => ret (wrapInt 64 true z)
  | _ => fault "TypeInt::get: the storage holds no integer"
  end.

Definition TypeInt_set (t : QiType) (storage : Storage) (v : Z) : M Storage :=
  match tshape t, storage with
  | ShInt bits signed, At a _ => ret (At a (CInt (wrapInt bits signed v)))
  | _, _ => fault "TypeInt::set: not integer storage"
  end.

(** Modelled from the spec: [TypeFloat::get] reads the stored number as a
    [double] (exact); [TypeFloat::set] rounds a [double] to the precision of
    the type. *)
Definition TypeFloat_get (value : Storage) : M Flt :=
  match value with
  | At _ (CFloat f) => ret f
  | _ => fault "TypeFloat::get: the storage holds no floating-point number"
  end.

Definition TypeFloat_set (t : QiType) (storage : Storage) (d : Flt) : M Storage :=
  match tshape t, storage with
  | ShFloat prec, At a _ => ret (At a (CFloat (roundFlt prec d)))
  | _, _ => fault "TypeFloat::set: not floating-point storage"
  end.

(** Modelled from the spec: [TypeList::elementType(storage)], "the list's
    element TypeDescriptor is queryable from the storage itself". *)
Definition TypeList_elementType (storage : Storage) : M QiType :=
  match storage with
  | At _ (CList et _) => ret et
  | _ => fault "TypeList::elementType: the storage holds no list"
  end.

(** Modelled from the spec: [Type::clone], "deep-copies owned storage (and,
    for list/object kinds, recursively clones contained values)".  Every
    cell of the copy is freshly allocated.  Cloning through a null pointer is
    a fault; the clone of a wrapped [GenericValue] with no type is the empty
    value. *)
Fixpoint cloneStorage (s : Storage) : M Storage :=
  match s with
  | Null => fault "clone: null storage"
  | At _ c =>
      match c with
      | CList et elems =>
          elems' <- foldM (fun acc e => e' <- cloneStorage e ;; ret (acc ++ [e'])) elems [] ;;
          alloc (CList et elems')
      | CValue (Some t) v => v' <- cloneStorage v ;; alloc (CValue (Some t) v')
      | CValue None _ => alloc (CValue None Null)
      | CObject (Some t) v => v' <- cloneStorage v ;; alloc (CObject (Some t) v')
      | CObject None _ => alloc (CObject None Null)
      | _ => alloc c
      end
  end.

(** Modelled from the spec: [GenericValue::clone]. *)
Definition clone (v : GenericValue) : M GenericValue :=
  match type v with
  | None => ret (GV None Null)
  | Some t => s <- cloneStorage (value v) ;; ret (GV (Some t) s)
  end.

(** Modelled from the spec: [GenericList::pushBack], "the list takes its own
    copy" of the element behind [val.value]. *)
Definition pushBack (l : GenericValue) (val : GenericValue) : M GenericValue :=
  e <- cloneStorage (value val) ;;
  match value l with
  | At a (CList et elems) => ret (GV (type l) (At a (CList et (elems ++ [e]))))
  | _ => fault "pushBack: the storage holds no list"
  end.

(** Modelled from the spec: [GenericValue::destroy] releases the storage the
    value owns, contained values included. *)
Definition destroy (v : GenericValue) : M unit :=
  fun st => Ok tt (MkState (next st) (live st ∖ list_to_set (addrs (value v))) (log st)).

(** ** [GenericValue::convert2] (genericvalue.cpp, lines 13-136) *)

(** The body of the loop over the source list (lines 57-69), for the
    element [e] the iterator stands on; [convert2] is the function itself.
    The list under construction is returned with the element pushed. *)
Definition convertElement
    (convert2 : option QiType -> Storage -> QiType -> M (GenericValue * bool))
    (needConvert : bool) (srcElemType dstElemType : QiType)
    (lresult : GenericValue) (e : Storage) : M GenericValue :=
  let val := GV (Some srcElemType) e in
  if negb needConvert then pushBack lresult val
  else
    c <- convert2 (type val) (value val) dstElemType ;;
    lresult' <- pushBack lresult (fst c) ;;
    (if snd c then destroy (fst c) else ret tt) ;;
    ret lresult'.

Fixpoint convert2 (type : option QiType) (value : Storage) (targetType : QiType)
    {struct value} : M (GenericValue * bool) :=
  match type with
  | None => fault "convert2: null type"
  | Some ty =>
    if tptr ty =? tptr targetType then ret (GV type value, false)
    else
      let skind := kind ty in
      let dkind := kind targetType in
      (* lines 75-135: what follows the same-kind switch *)
      let after_switch : M (GenericValue * bool) :=
        if bool_decide (skind = Kind.Float) && bool_decide (dkind = Kind.Int) then
          storage <- initializeStorage targetType ;;
          d <- TypeFloat_get value ;;
          match double_to_int64 d with
          | None => fault "double to int64_t: out of range"
          | Some z =>
              storage' <- TypeInt_set targetType storage z ;;
              ret (GV (Some targetType) storage', true)
          end
        else if bool_decide (skind = Kind.Int) && bool_decide (dkind = Kind.Float) then
          storage <- initializeStorage targetType ;;
          z <- TypeInt_get value ;;
          storage' <- TypeFloat_set targetType storage (int64_to_double z) ;;
          ret (GV (Some targetType) storage', true)
        else if String.eqb (tinfo targetType) genericValueInfo then
          (* Target is metavalue: special case *)
          w <- alloc (CValue type value) ;;
          ret (GV (Some targetType) w, false)
        else if String.eqb (tinfo ty) genericValueInfo then
          (* Source is metavalue: special case *)
          match value with
          | At _ (CValue mtype mvalue) => convert2 mtype mvalue targetType
          | _ => fault "convert2: the storage holds no GenericValue"
          end
        else if String.eqb (tinfo ty) genericObjectInfo then
          match value with
          | At _ (CObject otype ovalue) => convert2 otype ovalue targetType
          | _ => fault "convert2: the storage holds no GenericObject"
          end
        else
          let same_info : M (GenericValue * bool) :=
            if String.eqb (tinfo ty) (tinfo targetType) then ret (GV type value, false)
            else ret (emptyValue, false) in
          if bool_decide (skind = Kind.Object) then
            (* Try inheritance *)
            match tshape ty with
            | ShObject parents =>
                let inheritOffset := inherits parents targetType in
                if negb (inheritOffset =? -1) then
                  ret (GV (Some targetType) (offsetStorage value inheritOffset), false)
                else same_info
            | _ => fault "static_cast<ObjectType*>: not an ObjectType"
            end
          else same_info
      in
      if bool_decide (skind = dkind) then
        match skind with
        | Kind.Float =>
            storage <- initializeStorage targetType ;;
            d <- TypeFloat_get value ;;
            storage' <- TypeFloat_set targetType storage d ;;
            ret (GV (Some targetType) storage', true)
        | Kind.Int =>
            storage <- initializeStorage targetType ;;
            z <- TypeInt_get value ;;
            storage' <- TypeInt_set targetType storage z ;;
            ret (GV (Some targetType) storage', true)
        | Kind.List =>
            match value with
            | At _ (CList srcElemType elems) =>
                storage <- initializeStorage targetType ;;
                dstElemType <- TypeList_elementType storage ;;
                let needConvert := negb (String.eqb (tinfo srcElemType) (tinfo dstElemType)) in
                let lresult := GV (Some targetType) storage in
                lresult' <-
                  foldM (convertElement convert2 needConvert srcElemType dstElemType)
                        elems lresult ;;
                ret (lresult', true)
            | _ => fault "asList: the storage holds no list"
            end
        | _ => after_switch
        end
      else after_switch
  end.

(** ** [GenericValue::convert] and [GenericValue::convertCopy]
    (genericvalue.cpp, lines 138-201) *)

(** [qi::detail::DynamicValue]: the intermediate of the conversion of last
    resort.  Only its [type] field and the enumerator [Invalid] occur in the
    sources; the payload is left to the two virtual functions below. *)
Module DynamicValue.
Inductive Type_ := Invalid | Double | String | List | Map.

#[global] Instance eq_dec : EqDecision Type_.
Proof. solve_decision. Defined.

Record t := Mk { type : Type_; payload : Data }.
End DynamicValue.

Section Convert.

(** [Type::toValue], [Type::fromValue] and [Type::infoString] are virtual
    functions whose definitions are not part of the sources: they are
    parameters of the development. *)
Variable toValue : QiType -> Storage -> DynamicValue.t.
Variable fromValue : QiType -> DynamicValue.t -> M Storage.
Variable infoString : QiType -> string.

Fixpoint convert (type : option QiType) (value : Storage) (targetType : QiType)
    {struct value} : M (GenericValue * bool) :=
  if String.eqb (tinfo targetType) genericValueInfo then
    (* Target is metavalue: special case *)
    w <- alloc (CValue type value) ;;
    ret (GV (Some targetType) w, false)
  else
    match type with
    | None => fault "convert: null type"
    | Some ty =>
      if String.eqb (tinfo ty) genericValueInfo then
        (* Source is metavalue: special case *)
        match value with
        | At _ (CValue mtype mvalue) => convert mtype mvalue targetType
        | _ => fault "convert: the storage holds no GenericValue"
        end
      else if String.eqb (tinfo ty) genericObjectInfo then
        match value with
        | At _ (CObject otype ovalue) => convert otype ovalue targetType
        | _ => fault "convert: the storage holds no GenericObject"
        end
      else if String.eqb (tinfo targetType) (tinfo ty) then
        (* Same type *)
        ret (GV type value, false)
      else
        (* Different type *)
        let through_value : M (GenericValue * bool) :=
          (* Nothing else worked, go through value *)
          let temp := toValue ty value in
          (if bool_decide (DynamicValue.type temp = DynamicValue.Invalid) then
             logWarning ("Cast error " +:+ infoString ty +:+ " -> " +:+ infoString targetType)
           else ret tt) ;;
          storage <- fromValue targetType temp ;;
          ret (GV (Some targetType) storage, true) in
        (* Try inheritance: dynamic_cast<ObjectType*>(type) *)
        match tshape ty with
        | ShObject parents =>
            let inheritOffset := inherits parents targetType in
            if negb (inheritOffset =? -1) then
              ret (GV (Some targetType) (offsetStorage value inheritOffset), false)
            else through_value
        | _ => through_value
        end
    end.

Definition convertCopy (v : GenericValue) (targetType : QiType) : M GenericValue :=
  res <- convert (type v) (value v) targetType ;;
  if snd res then ret (fst res) else clone (fst res).

End Convert.

(** ** Signature derivation ([metaobjectbuilder.hpp]) *)

Module Cxx.

(** The C++ types a callable's signature is made of. *)
Inductive type :=
| Named (name : string)
| Const (t : type)
| Ref (t : type)
| Ptr (t : type).

(** [boost::remove_reference], [boost::remove_const] (top-level qualifier
    only) and [boost::add_pointer]. *)
Definition remove_reference (t : type) : type :=
  match t with Ref u => u | _ => t end.

Definition remove_const (t : type) : type :=
  match t with Const u => u | _ => t end.

Definition add_pointer (t : type) : type := Ptr (remove_reference t).

(** The type whose signature a parameter of type [t] contributes: what the
    pointer [add_pointer<remove_const<remove_reference<t>>>] points to. *)
Definition unqualify (t : type) : type :=
  remove_reference (remove_const (remove_reference t)).

(** A type with no reference and no top-level [const]. *)
Definition unqualified (t : type) : bool :=
  match t with Named _ | Ptr _ => true | Const _ | Ref _ => false end.

(** A function type, as [boost::function_types] takes it apart: for a
    member function pointer, [parameter_types] starts with the class. *)
Record function_type := Fn { result_type : type; parameter_types : list type }.

End Cxx.

(** [qi::Buffer]: the serialized arguments or result of a call. *)
Definition Buffer : Type := list Z.

(** [qi_object_method_t]: a foreign function, given the complete signature,
    the message and the user's [data]; what it leaves in the answer message
    is its result. *)
Definition qi_object_method_t : Type := string -> Buffer -> Z -> Buffer.

(** [qi::MetaFunction]: the erased callable [makeFunctor] builds from a
    function, or from an object and one of its methods, and the one
    [boost::bind(&c_call, complete_signature, func, data, _1)] builds. *)
Inductive MetaFunction :=
| FunctorOf (f : Cxx.function_type)
| MethodFunctorOf (object : string) (m : Cxx.function_type)
| BoundCCall (complete_sig : string) (func : option qi_object_method_t) (data : Z).

Section Builder.

(** [metaTypeOf<T>()->signature()] and [xAdvertiseMethod] /
    [xAdvertiseEvent] are declared but not defined in the sources: they are
    parameters.  [B] is the state of the builder.  Both return an [int];
    the templates return it as an [unsigned int]. *)
Variable signatureOf : Cxx.type -> string.
Variable B : Type.
Variable xAdvertiseMethod : string -> string -> MetaFunction -> B -> Z * B.
Variable xAdvertiseEvent : string -> B -> Z * B.

(** [detail::signature_function_arg_apply::operator()(T* x)]: the element
    type is a pointer; the pointee's signature is written to the stream. *)
Definition signature_function_arg_apply (val : string) (x : Cxx.type) : string :=
  match x with
  | Cxx.Ptr T => val +:+ signatureOf T
  | _ => val
  end.

(** [transform_view<ArgsType, add_pointer<remove_const<remove_reference<_1>>>>]. *)
Definition transform_view (ArgsType : list Cxx.type) : list Cxx.type :=
  map (fun a => Cxx.add_pointer (Cxx.remove_const (Cxx.remove_reference a))) ArgsType.

(** [boost::mpl::for_each]: the functor is applied to each element in order. *)
Definition for_each (view : list Cxx.type) (stream : string) : string :=
  fold_left signature_function_arg_apply view stream.

(** [advertiseMethod(name, function)] (lines 70-91; the
    [boost::function<T>] overload, lines 93-113, has the same body). *)
Definition advertiseMethod (name : string) (function : Cxx.function_type) (b : B) : Z * B :=
  let signature := name +:+ "::(" in
  let ArgsType := Cxx.parameter_types function in
  let signature := for_each (transform_view ArgsType) signature in
  let signature := signature +:+ ")" in
  let sigret := signatureOf (Cxx.result_type function) in
  let r := xAdvertiseMethod sigret signature (FunctorOf function) b in
  (wrapInt 32 false (fst r), snd r).

(** [advertiseEvent<FUNCTION_TYPE>(eventName)] (lines 115-130). *)
Definition advertiseEvent (eventName : string) (function : Cxx.function_type) (b : B) : Z * B :=
  let signature := eventName +:+ "::(" in
  let ArgsType := Cxx.parameter_types function in
  let signature := for_each (transform_view ArgsType) signature in
  let signature := signature +:+ ")" in
  let r := xAdvertiseEvent signature b in
  (wrapInt 32 false (fst r), snd r).

(** [advertiseMethod(name, object, method)] (lines 132-153):
    [pop_front] drops the class from the parameter types. *)
Definition advertiseMethod_member (name : string) (object : string)
    (method : Cxx.function_type) (b : B) : Z * B :=
  let signature := name +:+ "::(" in
  let MemArgsType := Cxx.parameter_types method in
  let ArgsType := tail MemArgsType in
  let signature := for_each (transform_view ArgsType) signature in
  let signature := signature +:+ ")" in
  let sigret := signatureOf (Cxx.result_type method) in
  let r := xAdvertiseMethod sigret signature (MethodFunctorOf object method) b in
  (wrapInt 32 false (fst r), snd r).

(** The token a parameter of type [P] contributes to the envelope. *)
Definition parameter_token (P : Cxx.type) : string :=
  for_each (transform_view [P]) EmptyString.

End Builder.

(** ** The C bindings of objects ([object_c.cpp]) *)

(** What a call of a C function does: it returns, or the process faults
    (a null pointer is dereferenced, a vector is indexed out of range). *)
Inductive Outcome (A : Type) :=
| Returned (a : A)
| Crashed (why : string).
Arguments Returned {A} a.
Arguments Crashed {A} why.

(** Sequencing of calls that may fault. *)
Definition andThen {A B} (o : Outcome A) (k : A -> Outcome B) : Outcome B :=
  match o with
  | Returned a => k a
  | Crashed why => Crashed why
  end.

(** A [qi::Future] once its promise has been written: a value or an error. *)
Inductive Future (A : Type) :=
| FutureValue (a : A)
| FutureError (msg : string).
Arguments FutureValue {A} a.
Arguments FutureError {A} msg.

(** [qi_message_data_t]. *)
Record qi_message_t := Message { buff : Buffer }.

Record MetaMethod := MkMetaMethod { uid : Z; sigreturn : string; signature : string }.

(** Modelled from the spec: [qi::MetaObject] is not part of the sources.
    It is a "mapping from method-id to MetaMethod, plus a reverse lookup
    from full signature string to id".  [methodId] returns an [int]: the
    answer for a signature that is not registered is written [-1];
    [method] returns a pointer: null ([None]) for an id with no method. *)
Record MetaObject := MkMetaObject {
  methods : gmap Z MetaMethod;
  methodsNameToIdx : gmap string Z
}.

Definition methodId (mo : MetaObject) (name : string) : Z :=
  default (-1) (methodsNameToIdx mo !! name).

Definition method (mo : MetaObject) (id : Z) : option MetaMethod :=
  methods mo !! id.

(** A signature is registered when the reverse lookup knows it and leads
    to a method of that signature. *)
Definition registered (mo : MetaObject) (sig : string) : Prop :=
  exists id mm, methodsNameToIdx mo !! sig = Some id /\
                methods mo !! id = Some mm /\ signature mm = sig.

(** The object behind a [qi::ObjectPtr]: its meta-object and the callable
    bound to each method id. *)
Record GenericObject := MkObject {
  metaObject : MetaObject;
  functors : gmap Z MetaFunction
}.

(** [c_call] (lines 79-103): the foreign function fills the answer message;
    with a null [func] the answer stays empty. *)
Definition c_call (complete_sig : string) (func : option qi_object_method_t)
    (data : Z) (params : Buffer) : Buffer :=
  let message_c := Message params in
  let answer_c := Message [] in
  let answer_c :=
    match func with
    | Some f => Message (f complete_sig (buff message_c) data)
    | None => answer_c
    end in
  buff answer_c.

(** Applying a [qi::MetaFunction] to the parameters of a call.  The functor
    [boost::bind(&c_call, complete_signature, func, data, _1)] calls
    [c_call]; [makeFunctor] is not part of the sources. *)
Definition apply_functor (f : MetaFunction) (params : Buffer) : option Buffer :=
  match f with
  | BoundCCall complete_sig func data => Some (c_call complete_sig func data params)
  | _ => None
  end.

(** [qiFutureCAdapter] (lines 21-30): what the promise holds once the
    adapter has run on the result of the call. *)
Definition qiFutureCAdapter (result : Future Buffer) : Future qi_message_t :=
  match result with
  | FutureError e => FutureError e
  | FutureValue v => FutureValue (Message v)
  end.

Section ObjectC.

(** [GenericObject::xMetaCall], [qi::signatureSplit] and
    [GenericObjectBuilder::xAdvertiseMethod] are not part of the sources:
    they are parameters. *)
Variable xMetaCall : GenericObject -> string -> string -> Buffer -> Future Buffer.
Variable signatureSplit : string -> list string.
Variable xAdvertiseMethod :
  string -> string -> MetaFunction -> GenericObject -> Z * GenericObject.

(** [qi_object_call] (lines 45-63). *)
Definition qi_object_call (object : GenericObject) (signature_c : string)
    (message : qi_message_t) : Outcome (Future qi_message_t) :=
  let obj := object in
  (* Get sigreturn for functor result *)
  let methodId := methodId (metaObject obj) signature_c in
  let mm := method (metaObject obj) methodId in
  match mm with
  | None => Crashed "mm->sigreturn(): mm is null"
  | Some mm =>
      let res := xMetaCall obj (sigreturn mm) signature_c (buff message) in
      Returned (qiFutureCAdapter res)
  end.

(** [qi_object_builder_register_method] (lines 106-119).  Indexing [sigInfo]
    is the unchecked indexing of [std::vector]: nothing is defined out of
    range. *)
Definition qi_object_builder_register_method (object_builder : GenericObject)
    (complete_signature : string) (func : option qi_object_method_t) (data : Z)
    : Outcome (Z * GenericObject) :=
  let ob := object_builder in
  let sigInfo := signatureSplit complete_signature in
  match sigInfo !! 1%nat, sigInfo !! 2%nat, sigInfo !! 0%nat with
  | Some s1, Some s2, Some s0 =>
      let signature := s1 +:+ "::" +:+ s2 in
      let '(_, ob') :=
        xAdvertiseMethod s0 signature (BoundCCall complete_signature func data) ob in
      Returned (0, ob')
  | _, _, _ => Crashed "sigInfo: index out of range"
  end.

End ObjectC.

(** [qi_object_builder_get_object] (lines 121-128): a new [ObjectPtr], set
    to the object of the builder.  The builder is modelled by the object it
    is building. *)
Definition qi_object_builder_get_object (object_builder : GenericObject) : GenericObject :=
  let ob := object_builder in
  let o := ob in
  o.

(** ** The service of the messaging test ([test_messaging.cpp]) *)

Module Messaging.

(** The variant value, [CallDefinition] and [ResultDefinition] of
    [AL::Messaging] are declared in headers that are not part of the
    sources.  What the test uses of them is modelled: a value is empty, an
    [int] or a string; a call has a method name and arguments; a result has
    a value.  [as<T>()] on a value that holds no [T], and [front()] on an
    empty argument list, have no defined result. *)
Inductive VariableValue :=
| Empty
| Int (i : Z)
| Str (s : string).

Record CallDefinition := Call { methodName : string; args : list VariableValue }.

Record ResultDefinition := Result { value : VariableValue }.

Definition as_string (v : VariableValue) : Outcome string :=
  match v with
  | Str s => Returned s
  | _ => Crashed "as<std::string>: the value holds no string"
  end.

Definition as_int (v : VariableValue) : Outcome Z :=
  match v with
  | Int i => Returned i
  | _ => Crashed "as<int>: the value holds no int"
  end.

Definition front (l : list VariableValue) : Outcome VariableValue :=
  match l with
  | a :: _ => Returned a
  | [] => Crashed "front(): the argument list is empty"
  end.

(** [(int)s.size()]. *)
Definition size (s : string) : Z := wrapInt 32 true (Z.of_nat (String.length s)).

(** [std::string(n, c)]. *)
Fixpoint std_string (n : nat) (c : ascii) : string :=
  match n with
  | O => EmptyString
  | S n' => String c (std_string n' c)
  end.

(** [ServiceHandler::onMessage] (lines 29-49). *)
Definition onMessage (def : CallDefinition) : Outcome ResultDefinition :=
  let res := Result Empty in
  let res := if String.eqb (methodName def) "ping" then (* do nothing *) res else res in
  if String.eqb (methodName def) "size" then
    andThen (front (args def)) (fun a =>
    andThen (as_string a) (fun s =>
    Returned (Result (Int (size s)))))
  else if String.eqb (methodName def) "echo" then
    andThen (front (args def)) (fun a =>
    andThen (as_string a) (fun result =>
    Returned (Result (Str result))))
  else Returned res.

Definition gThreadCount : nat := 10.
Definition gLoopCount : nat := 10000.

(** [for (int i = 0; i < n; ++i) body(i)]. *)
Definition for_ (n : nat) (body : nat -> Outcome unit) : Outcome unit :=
  fold_right (fun i rest => andThen (body i) (fun _ => rest)) (Returned tt) (seq 0 n).

(** [(unsigned int)pow(2.0f, (int)i)]. *)
Definition numBytes (i : nat) : nat := Nat.pow 2 i.

Section Client.

(** [AL::Messaging::Client::send] is not part of the sources: it is a
    parameter. *)
Variable send : CallDefinition -> Outcome ResultDefinition.

(** [main_client] (lines 65-113): the calls it sends and the replies it
    reads; the connection and the timer are left out. *)
Definition main_client (clientId : Z) : Outcome Z :=
  andThen (for_ gLoopCount (fun j =>
    andThen (send (Call "ping" [])) (fun _ => Returned tt))) (fun _ =>
  andThen (for_ 12 (fun i =>
    let request := std_string (numBytes i) "B"%char in
    for_ gLoopCount (fun j =>
      andThen (send (Call "size" [Str request])) (fun res =>
      andThen (as_int (value res)) (fun size => Returned tt))))) (fun _ =>
  andThen (for_ 12 (fun i =>
    let request := std_string (numBytes i) "B"%char in
    for_ gLoopCount (fun j =>
      let def := Call "echo" [Str request] in
      andThen (send def) (fun res =>
      andThen (as_string (value res)) (fun result => Returned tt))))) (fun _ =>
  Returned 0))).

End Client.

End Messaging.

(** ** Vocabulary of the statements *)

(** The envelope as the specification words it: the name, then the
    signature token of each parameter type in parameter order between
    the opening and the closing parenthesis. *)
Definition envelope (signatureOf : Cxx.type -> string) (name : string)
    (params : list Cxx.type) : string :=
  name +:+ "::(" +:+
  fold_right String.append EmptyString
    (map (fun P => signatureOf (Cxx.unqualify P)) params)
  +:+ ")".

(** What the [advertise] templates return of the answer [r] of
    [xAdvertiseMethod] / [xAdvertiseEvent]: its [int] as an [unsigned int],
    and the builder. *)
Definition advertised {B : Type} (r : Z * B) : Z * B := (wrapInt 32 false (fst r), snd r).

(** Modelled from the spec: [GenericObjectBuilder::xAdvertiseMethod] is not
    part of the sources.  "Re-registering a name that collides with an
    existing one is a builder-time error, reported synchronously": the
    [int] it returns is the id of the new method, or [-1] for a conflict,
    which leaves the object as it was. *)
Definition xAdvertiseMethod_spec (retsig sig : string) (f : MetaFunction)
    (ob : GenericObject) : Z * GenericObject :=
  let mo := metaObject ob in
  match methodsNameToIdx mo !! sig with
  | Some _ => (-1, ob)
  | None =>
      let id := Z.of_nat (size (methods mo)) in
      (id, MkObject (MkMetaObject (<[id := MkMetaMethod id retsig sig]> (methods mo))
                                  (<[sig := id]> (methodsNameToIdx mo)))
                    (<[id := f]> (functors ob)))
  end.

(** Modelled from the spec: [GenericObject::xMetaCall] is not part of the
    sources.  "Resolve: given a target object's MetaObject and a signature
    string, look up the MethodId.  Unknown signature -> Errored"; then the
    callable is invoked and "the result buffer (or error) is written exactly
    once into a Promise". *)
Definition xMetaCall_spec (ob : GenericObject) (retsig sig : string) (params : Buffer)
    : Future Buffer :=
  match methodsNameToIdx (metaObject ob) !! sig with
  | None => FutureError "UnknownMethod"
  | Some id =>
      match functors ob !! id with
      | None => FutureError "UnknownMethod"
      | Some f =>
          match apply_functor f params with
          | Some result => FutureValue result
          | None => FutureError "MethodFailed"
          end
      end
  end.

(** An object with no method, and the object whose one method is
    [echo::(s)], returning a string. *)
Definition emptyObject : GenericObject := MkObject (MkMetaObject ∅ ∅) ∅.

Definition echo : qi_object_method_t := fun _ message _ => message.

Definition echoObject : GenericObject :=
  snd (xAdvertiseMethod_spec "s" "echo::(s)" (BoundCCall "echo::s(s)" (Some echo) 0) emptyObject).

(** The split of the one complete signature the examples register: return
    signature, name, parameter envelope. *)
Definition splitEcho (s : string) : list string :=
  if String.eqb s "echo::s(s)" then ["s"; "echo"; "(s)"] else [].

(** An integer is representable exactly in a binary format of [p]
    significant bits when it is a [p]-bit integer scaled by a power of two. *)
Definition representable (p z : Z) : Prop :=
  exists M E, 0 <= E /\ Z.abs M < 2 ^ p /\ z = M * 2 ^ E.

(** The address a storage handle holds (null is 0). *)
Definition addrOf (s : Storage) : Z :=
  match s with Null => 0 | At a _ => a end.

(** The state after [qiLogWarning] has written the cast error. *)
Definition castErrorLogged (infoString : QiType -> string) (ty targetType : QiType)
    (st : State) : State :=
  MkState (next st) (live st)
    (log st ++ ["Cast error " +:+ infoString ty +:+ " -> " +:+ infoString targetType]).

(** Sample descriptors and values, used where a statement is instantiated. *)
Definition tInt32 : QiType := MkType 1 "int" (ShInt 32 true).
Definition tInt8 : QiType := MkType 2 "signed char" (ShInt 8 true).
Definition tFloat : QiType := MkType 3 "float" (ShFloat 24).
Definition tDouble : QiType := MkType 4 "double" (ShFloat 53).
Definition tString : QiType := MkType 5 "std::string" (ShOther Kind.String).
Definition tDynamic : QiType := MkType 6 genericValueInfo (ShOther Kind.Dynamic).
Definition tBase : QiType := MkType 7 "Base" (ShObject []).
Definition tDerived : QiType := MkType 8 "Derived" (ShObject [("Base", 8)]).
Definition tListInt : QiType := MkType 9 "std::vector<int>" (ShList tInt32).
Definition tListDouble : QiType := MkType 10 "std::vector<double>" (ShList tDouble).
Definition tListDynamic : QiType := MkType 11 "std::vector<qi::GenericValue>" (ShList tDynamic).
Definition tListInt' : QiType := MkType 12 "std::vector<int>" (ShList tInt32).
Definition tUInt8 : QiType := MkType 13 "unsigned char" (ShInt 8 false).

Definition st0 : State := MkState 100 ∅ [].

(** A [Derived] object: two words of its own, then its [Base] part. *)
Definition derivedObject : Storage :=
  At 40 (CStruct (<[0 := 11]> (<[4 := 22]> (<[8 := 33]> (<[12 := 44]> ∅))))).

Definition listOfInts : Storage :=
  At 10 (CList tInt32 [At 11 (CInt 1); At 12 (CInt 2); At 13 (CInt 3)]).

(** Stand-ins for the absent virtual functions: a source that has no dynamic
    representation, and a target that builds its zero value from anything. *)
Definition toValue_invalid (_ : QiType) (_ : Storage) : DynamicValue.t :=
  DynamicValue.Mk DynamicValue.Invalid DNull.

Definition fromValue_zero (t : QiType) (_ : DynamicValue.t) : M Storage :=
  initializeStorage t.

(** [holds ty v ty' v']: the pair [(ty', v')] is the pair [(ty, v)]
    itself, or a pair held in it through [GenericValue] and [GenericObject]
    objects: a value that exists before a conversion of [(ty, v)] starts. *)
Inductive holds : option QiType -> Storage -> option QiType -> Storage -> Prop :=
| holds_here ty v : holds ty v ty v
| holds_value t a mt mv ty' v' :
    tinfo t = genericValueInfo -> holds mt mv ty' v' ->
    holds (Some t) (At a (CValue mt mv)) ty' v'
| holds_object t a ot ov ty' v' :
    tinfo t = genericObjectInfo -> holds ot ov ty' v' ->
    holds (Some t) (At a (CObject ot ov)) ty' v'.

(** [viewOf T ty v r]: the value [r] is a pair held in [(ty, v)], as it is,
    or, when the type of that pair is an object type that inherits from
    [T], seen as a [T] at the offset [inherits] answers. *)
Definition viewOf (T : QiType) (ty : option QiType) (v : Storage) (r : GenericValue) : Prop :=
  exists ty' v', holds ty v ty' v' /\
    (r = GV ty' v' \/
     exists t parents,
       ty' = Some t /\ tshape t = ShObject parents /\ inherits parents T <> -1 /\
       r = GV (Some T) (offsetStorage v' (inherits parents T))).

(** The state after one allocation. *)
Definition allocated (st : State) : State :=
  MkState (next st + 1) ({[ next st ]} ∪ live st) (log st).

(** Storage that [Type::clone] can copy: no null pointer where a typed
    value is expected. *)
Fixpoint clonableD (d : Data) : bool :=
  match d with
  | DNull => false
  | DList _ elems => forallb clonableD elems
  | DValue (Some _) v => clonableD v
  | DObject (Some _) v => clonableD v
  | _ => true
  end.

Definition clonable (s : Storage) : bool := clonableD (dataOf s).

(** [grows st st']: from [st] to [st'] addresses were only handed out
    upwards, and whatever is live in [st'] was live in [st] or was handed
    out in between. *)
Definition grows (st st' : State) : Prop :=
  next st <= next st' /\
  forall x, x ∈ live st' -> x ∈ live st \/ next st <= x < next st'.

(** Every address of [s] was handed out between [st] and [st']. *)
Definition fresh (st st' : State) (s : Storage) : Prop :=
  Forall (fun x => next st <= x < next st') (addrs s).

(** What a clone [s'] of [s], made from [st] to [st'], guarantees: nothing
    is released, the copy is made of fresh, live cells, and holds the same
    data. *)
Definition cloned (s : Storage) (st : State) (s' : Storage) (st' : State) : Prop :=
  grows st st' /\ live st ⊆ live st' /\
  fresh st st' s' /\ Forall (fun x => x ∈ live st') (addrs s') /\
  dataOf s' = dataOf s.

(** The premise of structural induction on storage. *)
Definition sub_holds (P : Storage -> Prop) (c : Content) : Prop :=
  match c with
  | CList _ elems => Forall P elems
  | CValue _ v => P v
  | CObject _ v => P v
  | _ => True
  end.

(** What a computation yields, the state forgotten. *)
Definition outcome {A X : Type} (abs : A -> X) (r : Res A) : option X :=
  match r with Ok a _ => Some (abs a) | Fault _ => None end.

(** Two computations that yield the same, from whatever states. *)
Definition indep {A X : Type} (abs : A -> X) (m1 m2 : M A) : Prop :=
  forall st1 st2, outcome abs (m1 st1) = outcome abs (m2 st2).

(** A value and the result of a conversion, storage replaced by its data. *)
Definition absV (g : GenericValue) : option QiType * Data := (type g, dataOf (value g)).

Definition absR (r : GenericValue * bool) : (option QiType * Data) * bool :=
  (absV (fst r), snd r).

(** Proof steps shared by the case analyses of the conversion functions:
    run the effects of a hypothesis, split on the next test, read off a
    result. *)
Ltac run H :=
  repeat (unfold bind, ret, fault, initializeStorage, alloc, logWarning, TypeInt_get,
            TypeFloat_get, TypeInt_set, TypeFloat_set, TypeList_elementType in H;
          cbn -[inherits foldM offsetStorage] in H).

Ltac split_match H :=
  match type of H with
  | context [match ?x with _ => _ end] =>
      lazymatch x with
      | context [match _ with _ => _ end] => fail
      | _ => destruct x eqn:?; try discriminate H; try congruence
      end
  end.

Ltac leaf H :=
  unfold emptyValue in H;
  lazymatch type of H with
  | Ok (GV ?t ?x, _) ?s = Ok (?r, _) ?s' =>
      assert (r = GV t x) by congruence; assert (s' = s) by congruence;
      subst r s'; change (value (GV t x)) with x
  end.

(** The outcome of pushing an element whose data is [d] on the list [l]:
    the list with its data extended, provided the element can be copied. *)
Definition pushed (l : option QiType * Data) (d : Data) : option (option QiType * Data) :=
  if clonableD d then
    match snd l with
    | DList et ds => Some (fst l, DList et (ds ++ [d]))
    | _ => None
    end
  else None.

(** Every address of [s] lies in [lo, hi). *)
Definition bounded (lo hi : Z) (s : Storage) : Prop :=
  Forall (fun x => lo <= x < hi) (addrs s).

(** What the conversion of [e] does to the state: addresses are handed
    out upwards, and a result that owns its storage is made of cells handed
    out by the conversion. *)
Definition conv_grows (e : Storage) : Prop :=
  forall ty T st c o st',
    convert2 ty e T st = Ok (c, o) st' ->
    grows st st' /\ (o = true -> fresh st st' (value c)).

(** The premise of the list conversion for the element [e]: with
    identical element types the element can be copied; otherwise its
    conversion to [dT], run in the state [st] the list conversion starts
    from, returns a value that can be copied. *)
Definition elemConverts (sT dT : QiType) (st : State) (e : Storage) : Prop :=
  if String.eqb (tinfo sT) (tinfo dT) then clonable e = true
  else exists c o st1,
         convert2 (Some sT) e dT st = Ok (c, o) st1 /\ clonable (value c) = true.

(** What the list conversion, run from [st] to [st'], makes of the element
    [e]: [b], the element of the result at the same position.  With
    identical element types [b] is the copy [pushBack] made of [e].
    Otherwise the loop converted [e] (in some state [s]), [b] is the copy
    [pushBack] made of the result [c], a result that owned its storage is
    no longer live in [st'], and the conversion of [e] run in [st] gives
    the same data and the same flag. *)
Definition elemConverted (sT dT : QiType) (st st' : State) (e b : Storage) : Prop :=
  if String.eqb (tinfo sT) (tinfo dT) then
    (exists s s1, cloneStorage e s = Ok b s1) /\ dataOf b = dataOf e
  else
    exists s c o s1 s2,
      convert2 (Some sT) e dT s = Ok (c, o) s1 /\
      cloneStorage (value c) s1 = Ok b s2 /\
      dataOf b = dataOf (value c) /\
      (o = true -> Forall (fun x => x ∉ live st') (addrs (value c))) /\
      (forall c0 o0 s0, convert2 (Some sT) e dT st = Ok (c0, o0) s0 ->
                        dataOf (value c0) = dataOf (value c) /\ o0 = o).

(** The same proof steps on a goal, and reading off a result with its flag. *)
Ltac rung :=
  repeat (unfold bind, ret, fault, initializeStorage, alloc, TypeInt_get, TypeFloat_get,
            TypeInt_set, TypeFloat_set, TypeList_elementType;
          cbn -[inherits foldM offsetStorage outcome absR]).

Ltac split_goal :=
  match goal with
  | |- context [match ?x with _ => _ end] =>
      lazymatch x with
      | context [match _ with _ => _ end] => fail
      | context [foldM] => fail
      | context [convert2] => fail
      | _ => destruct x eqn:?
      end
  end.

Ltac leaf' H :=
  unfold emptyValue in H;
  lazymatch type of H with
  | Ok (?g, ?b) ?s = Ok (?c, ?o) ?s' =>
      assert (c = g) by congruence; assert (o = b) by congruence;
      assert (s' = s) by congruence; subst c o s'
  end.

(** [describes t T]: [t] is the instance [T], or an instance of the same
    effective type. *)
Definition describes (t T : QiType) : Prop := tptr t = tptr T \/ tinfo t = tinfo T.

(** Every cell handed out before [st] and live in [st] is live in [st']. *)
Definition keeps (st st' : State) : Prop :=
  forall x, x < next st -> x ∈ live st -> x ∈ live st'.

(** Every cell of [s] is live in [st]. *)
Definition allLive (st : State) (s : Storage) : Prop :=
  Forall (fun x => x ∈ live st) (addrs s).

(** What the conversion of [e] keeps: the cells that were live, and the
    cells of a result that owns its storage. *)
Definition conv_keeps (e : Storage) : Prop :=
  forall ty T st c o st',
    convert2 ty e T st = Ok (c, o) st' ->
    keeps st st' /\ (o = true -> allLive st' (value c)).

(** * Theorems *)

(** ** Signature derivation *)

Lemma append_assoc (a b c : string) : (a +:+ b) +:+ c = a +:+ (b +:+ c).
Proof.
  induction a as [|x a IH]; [reflexivity|].
  change (String x ((a +:+ b) +:+ c) = String x (a +:+ (b +:+ c))).
  f_equal; exact IH.
Qed.

Lemma append_empty_r (a : string) : a +:+ EmptyString = a.
Proof.
  induction a as [|x a IH]; [reflexivity|].
  change (String x (a +:+ EmptyString) = String x a).
  f_equal; exact IH.
Qed.

(** The stream after [for_each]: what it held, then the tokens in order. *)
Lemma for_each_tokens signatureOf (params : list Cxx.type) (stream : string) :
  for_each signatureOf (transform_view params) stream =
  stream +:+ fold_right String.append EmptyString
    (map (fun P => signatureOf (Cxx.unqualify P)) params).
Proof.
  unfold for_each, transform_view.
  revert stream. induction params as [|P params IH]; intros stream; simpl.
  - now rewrite append_empty_r.
  - rewrite IH. unfold Cxx.add_pointer, Cxx.unqualify. simpl. now rewrite append_assoc.
Qed.

Lemma parameter_token_unqualify signatureOf (P : Cxx.type) :
  parameter_token signatureOf P = signatureOf (Cxx.unqualify P).
Proof.
  unfold parameter_token. rewrite for_each_tokens.
  change (signatureOf (Cxx.unqualify P) +:+ EmptyString = signatureOf (Cxx.unqualify P)).
  apply append_empty_r.
Qed.

(** C9.  [advertiseMethod(name, function)] calls [xAdvertiseMethod] once,
    with the signature [name::(t1...tn)], where [ti] is the signature token
    of the i-th parameter type, in parameter order, and, as a separate
    argument, the signature of the return type, which depends on the return
    type alone; it returns the answer of that call as an [unsigned int].
    The [boost::function] overload has the same body. *)
Theorem advertiseMethod_derives_signature
    (signatureOf : Cxx.type -> string) (B : Type)
    (xAdvertiseMethod : string -> string -> MetaFunction -> B -> Z * B)
    (name : string) (function : Cxx.function_type) (b : B) :
  advertiseMethod signatureOf B xAdvertiseMethod name function b =
  advertised (xAdvertiseMethod (signatureOf (Cxx.result_type function))
                (envelope signatureOf name (Cxx.parameter_types function))
                (FunctorOf function) b).
Proof.
  unfold advertiseMethod, advertised, envelope.
  rewrite for_each_tokens. now rewrite !append_assoc.
Qed.

(** The tokens of a parameter list: what [for_each] writes for it. *)
Lemma tokens_app signatureOf (before after : list Cxx.type) (q : Cxx.type) :
  fold_right String.append EmptyString
    (map (fun P => signatureOf (Cxx.unqualify P)) (before ++ q :: after)) =
  fold_right String.append EmptyString
    (map (fun P => signatureOf (Cxx.unqualify P)) before)
  +:+ signatureOf (Cxx.unqualify q) +:+
  fold_right String.append EmptyString
    (map (fun P => signatureOf (Cxx.unqualify P)) after).
Proof.
  induction before as [|P before IH]; [reflexivity|].
  cbn [app map fold_right]. rewrite IH. now rewrite !append_assoc.
Qed.

(** C10.  Each parameter's token is computed from its type with the
    reference and the top-level [const] removed.  For an unqualified [T]:
    wherever a parameter of type [T], [T&], [const T] or [const T&] stands
    in the parameter list of a callable, [advertiseMethod] registers the
    signature in which that parameter contributes the token of [T], between
    the tokens of the parameters before it and of those after it (the
    helper [parameter_token] computes that token).  The member overload
    registers the envelope built, in the same way, from the parameter types
    that follow the receiver. *)
Theorem signature_tokens_normalized
    (signatureOf : Cxx.type -> string) (B : Type)
    (xAdvertiseMethod : string -> string -> MetaFunction -> B -> Z * B)
    (T : Cxx.type) :
  Cxx.unqualified T = true ->
  parameter_token signatureOf T = signatureOf T /\
  parameter_token signatureOf (Cxx.Ref T) = signatureOf T /\
  parameter_token signatureOf (Cxx.Ref (Cxx.Const T)) = signatureOf T /\
  (forall name result before after q b,
     q = T \/ q = Cxx.Ref T \/ q = Cxx.Const T \/ q = Cxx.Ref (Cxx.Const T) ->
     advertiseMethod signatureOf B xAdvertiseMethod name
       (Cxx.Fn result (before ++ q :: after)) b =
     advertised (xAdvertiseMethod (signatureOf result)
                   (name +:+ "::(" +:+
                    (fold_right String.append EmptyString
                       (map (fun P => signatureOf (Cxx.unqualify P)) before)
                     +:+ signatureOf T +:+
                     fold_right String.append EmptyString
                       (map (fun P => signatureOf (Cxx.unqualify P)) after))
                    +:+ ")")
                   (FunctorOf (Cxx.Fn result (before ++ q :: after))) b)) /\
  (forall name object result receiver params b,
     advertiseMethod_member signatureOf B xAdvertiseMethod name object
       (Cxx.Fn result (receiver :: params)) b =
     advertised (xAdvertiseMethod (signatureOf result) (envelope signatureOf name params)
                   (MethodFunctorOf object (Cxx.Fn result (receiver :: params))) b)).
Proof.
  intros HT. rewrite !parameter_token_unqualify.
  assert (HU : forall q,
            q = T \/ q = Cxx.Ref T \/ q = Cxx.Const T \/ q = Cxx.Ref (Cxx.Const T) ->
            Cxx.unqualify q = T).
  { intros q [->|[->|[->| ->]]];
      destruct T; try discriminate HT; reflexivity. }
  split; [apply (f_equal signatureOf), HU; auto|].
  split; [apply (f_equal signatureOf), HU; auto|].
  split; [apply (f_equal signatureOf), HU; auto|].
  split.
  - intros name result before after q b Hq.
    unfold advertiseMethod, advertised. cbn [Cxx.parameter_types Cxx.result_type].
    rewrite for_each_tokens, tokens_app, (HU q Hq). now rewrite !append_assoc.
  - intros. unfold advertiseMethod_member, advertised, envelope.
    cbn [Cxx.parameter_types Cxx.result_type tail].
    rewrite for_each_tokens. now rewrite !append_assoc.
Qed.

Lemma signature_tokens_normalized_witness :
  advertiseMethod (fun _ => "i")
    (list (string * string)) (fun sigret sig _ b => (0, (sigret, sig) :: b)) "f"
    (Cxx.Fn (Cxx.Named "void") [Cxx.Ref (Cxx.Const (Cxx.Named "int"))]) []
  = (0, [("i", "f::(i)")]).
Proof.
  refine (proj1 (proj2 (proj2 (proj2
    (signature_tokens_normalized
       (fun _ => "i")
       (list (string * string)) (fun sigret sig _ b => (0, (sigret, sig) :: b))
       (Cxx.Named "int") _))))
    "f" (Cxx.Named "void") [] [] (Cxx.Ref (Cxx.Const (Cxx.Named "int"))) [] _).
  - reflexivity.
  - right. right. right. reflexivity.
Defined.

(** ** The C bindings *)

(** Whatever [xMetaCall] would answer, a signature whose lookup yields no
    method makes [qi_object_call] dereference a null [MetaMethod] before any
    future exists. *)
Lemma qi_object_call_null_method xMetaCall (obj : GenericObject) (sig : string)
    (message : qi_message_t) :
  method (metaObject obj) (methodId (metaObject obj) sig) = None ->
  qi_object_call xMetaCall obj sig message = Crashed "mm->sigreturn(): mm is null".
Proof. intros H. unfold qi_object_call. now rewrite H. Qed.

(** When the lookup does find a method, the call returns a future, and an
    error of the call is the error of that future. *)
Lemma qi_object_call_found xMetaCall (obj : GenericObject) (sig : string)
    (message : qi_message_t) (mm : MetaMethod) :
  method (metaObject obj) (methodId (metaObject obj) sig) = Some mm ->
  qi_object_call xMetaCall obj sig message =
  Returned (qiFutureCAdapter (xMetaCall obj (sigreturn mm) sig (buff message))).
Proof. intros H. unfold qi_object_call. now rewrite H. Qed.

(** C1 (the code at the failing input).  On the object whose only method is
    [echo::(s)], the signature [missing::()] is not registered, and
    [qi_object_call] faults on the null [MetaMethod] instead of returning a
    future that holds an error. *)
Theorem qi_object_call_unregistered_crashes
    (xMetaCall : GenericObject -> string -> string -> Buffer -> Future Buffer)
    (message : qi_message_t) :
  methodsNameToIdx (metaObject echoObject) !! "missing::()" = None /\
  qi_object_call xMetaCall echoObject "missing::()" message =
  Crashed "mm->sigreturn(): mm is null".
Proof. split; reflexivity. Qed.

(** The value [qi_object_builder_register_method] returns is 0 whenever it
    returns: the result of [xAdvertiseMethod] is dropped. *)
Lemma register_method_returns_zero signatureSplit xAdvertiseMethod
    (ob : GenericObject) (sig : string) (func : option qi_object_method_t)
    (data r : Z) (ob' : GenericObject) :
  qi_object_builder_register_method signatureSplit xAdvertiseMethod ob sig func data
    = Returned (r, ob') ->
  r = 0.
Proof.
  unfold qi_object_builder_register_method.
  destruct (signatureSplit sig !! 1%nat); [|discriminate].
  destruct (signatureSplit sig !! 2%nat); [|discriminate].
  destruct (signatureSplit sig !! 0%nat); [|discriminate].
  destruct (xAdvertiseMethod _ _ _ _). congruence.
Qed.

(** C8 (the code at the failing input).  Registering [echo::s(s)] on a
    fresh builder returns 0; registering it again on the resulting builder
    is a conflict for [xAdvertiseMethod] (it answers [-1] and changes
    nothing), and [qi_object_builder_register_method] returns 0 again. *)
Theorem register_method_conflict_returns_zero :
  qi_object_builder_register_method splitEcho xAdvertiseMethod_spec
    emptyObject "echo::s(s)" (Some echo) 0 = Returned (0, echoObject) /\
  fst (xAdvertiseMethod_spec "s" "echo::(s)" (BoundCCall "echo::s(s)" (Some echo) 0)
         echoObject) = -1 /\
  qi_object_builder_register_method splitEcho xAdvertiseMethod_spec
    echoObject "echo::s(s)" (Some echo) 0 = Returned (0, echoObject).
Proof. repeat split; reflexivity. Qed.

(** ** Scalars *)

Lemma wrapInt_inRange (bits : Z) (signed : bool) (z : Z) :
  0 < bits -> inRange bits signed z -> wrapInt bits signed z = z.
Proof.
  intros Hb Hr. unfold wrapInt, inRange in *.
  assert (H2 : 2 ^ bits = 2 * 2 ^ (bits - 1)).
  { replace bits with (1 + (bits - 1)) at 1 by lia.
    rewrite Z.pow_add_r by lia. reflexivity. }
  destruct signed.
  - rewrite Z.mod_small by lia. lia.
  - apply Z.mod_small. lia.
Qed.

(** Rounding a multiple of [2^d] by [d] bits is exact. *)
Lemma rne_exact (q d : Z) : 0 < d -> rne (q * 2 ^ d) d = q.
Proof.
  intros Hd. unfold rne.
  assert (Hp : 0 < 2 ^ d) by (apply Z.pow_pos_nonneg; lia).
  assert (Hh : 0 < 2 ^ (d - 1)) by (apply Z.pow_pos_nonneg; lia).
  rewrite Z.mod_mul by lia. rewrite Z.div_mul by lia.
  destruct (0 <? 2 ^ (d - 1)) eqn:E; [reflexivity | lia].
Qed.

(** Rounding to [p] bits keeps the value of a number that is representable
    in [p] bits. *)
Lemma roundFlt_exact (p m e : Z) :
  0 < p -> 0 <= e -> representable p (m * 2 ^ e) ->
  0 <= fe (roundFlt p (MkFlt m e)) /\
  fm (roundFlt p (MkFlt m e)) * 2 ^ fe (roundFlt p (MkFlt m e)) = m * 2 ^ e.
Proof.
  intros Hp He (M & E & HE & HM & Heq).
  unfold roundFlt; cbn [fm fe].
  destruct (digits m - p <=? 0) eqn:Hd; cbn [fm fe]; [lia|].
  apply Z.leb_gt in Hd.
  assert (Hm0 : m <> 0).
  { intros ->. unfold digits in Hd. simpl in Hd. lia. }
  set (d := Z.log2 (Z.abs m) + 1 - p).
  assert (Hdig : digits m - p = d).
  { unfold digits. destruct (m =? 0) eqn:E0; [lia | reflexivity]. }
  rewrite Hdig in *.
  assert (Hlog : 2 ^ Z.log2 (Z.abs m) <= Z.abs m) by (apply Z.log2_spec; lia).
  assert (He2 : 0 < 2 ^ e) by (apply Z.pow_pos_nonneg; lia).
  assert (HE2 : 0 < 2 ^ E) by (apply Z.pow_pos_nonneg; lia).
  assert (Habs : Z.abs m * 2 ^ e = Z.abs M * 2 ^ E).
  { rewrite <- (Z.abs_eq (2 ^ e)), <- (Z.abs_eq (2 ^ E)) by lia.
    rewrite <- !Z.abs_mul. congruence. }
  assert (Hlt : 2 ^ (Z.log2 (Z.abs m) + e) < 2 ^ (p + E)).
  { rewrite !Z.pow_add_r by (try lia; apply Z.log2_nonneg). nia. }
  apply Z.pow_lt_mono_r_iff in Hlt; [|lia|lia].
  assert (Hm : m = M * 2 ^ (E - e - d) * 2 ^ d).
  { rewrite <- Z.mul_assoc, <- Z.pow_add_r by lia.
    replace (E - e - d + d) with (E - e) by lia.
    apply (Z.mul_reg_r _ _ (2 ^ e)); [lia|].
    rewrite <- Z.mul_assoc, <- Z.pow_add_r by lia.
    replace (E - e + e) with E by lia. exact Heq. }
  split; [lia|].
  rewrite Hm at 1. rewrite rne_exact by lia.
  rewrite (Z.add_comm e d), Z.pow_add_r by lia.
  rewrite Z.mul_assoc. rewrite <- Hm. reflexivity.
Qed.

(** An integer that fits [int64_t] and is representable in [p <= 53] bits
    survives [int64_t -> double -> (p-bit format) -> double -> int64_t]. *)
Lemma int_float_int (p z : Z) :
  0 < p <= 53 -> inRange 64 true z -> representable p z ->
  double_to_int64 (roundFlt p (int64_to_double z)) = Some z.
Proof.
  intros Hp Hr Hrep. unfold int64_to_double.
  assert (Hrep53 : representable 53 (z * 2 ^ 0)).
  { destruct Hrep as (M & E & HE & HM & ->). exists M, E. repeat split; [lia| |ring].
    eapply Z.lt_le_trans; [exact HM|]. apply Z.pow_le_mono_r; lia. }
  destruct (roundFlt_exact 53 z 0 ltac:(lia) ltac:(lia) Hrep53) as [He1 Hv1].
  destruct (roundFlt 53 (MkFlt z 0)) as [m1 e1]. cbn [fm fe] in *.
  assert (Hrep' : representable p (m1 * 2 ^ e1)).
  { rewrite Hv1. now replace (z * 2 ^ 0) with z by ring. }
  destruct (roundFlt_exact p m1 e1 ltac:(lia) He1 Hrep') as [He2 Hv2].
  destruct (roundFlt p (MkFlt m1 e1)) as [m2 e2]. cbn [fm fe] in *.
  unfold double_to_int64. cbn [fm fe].
  destruct (0 <=? e2) eqn:E2; [|lia].
  assert (Hz : m2 * 2 ^ e2 = z) by (rewrite Hv2, Hv1; ring).
  rewrite Hz. unfold inRange in Hr. simpl in Hr.
  destruct (- 2 ^ 63 <=? z) eqn:E3; [|lia].
  destruct (z <? 2 ^ 63) eqn:E4; [reflexivity | lia].
Qed.

(** ** Conversions between numeric kinds *)

(** An integer that is representable exactly in the integer type, in
    [int64_t] (the type [TypeInt::get] returns) and in a floating-point
    type of at most the 53 significant bits of [double] comes back
    unchanged from [Int -> Float -> Int]; each of the two conversions
    allocates the target storage (a fresh, live address, owned by the
    result) and writes the numerically cast scalar into it. *)
Theorem int_float_round_trip (tI tF : QiType) (bits : Z) (signed : bool) (p z a : Z)
    (st : State) :
  tshape tI = ShInt bits signed -> tshape tF = ShFloat p ->
  tptr tI <> tptr tF ->
  0 < bits -> inRange bits signed z -> inRange 64 true z ->
  0 < p <= 53 -> representable p z ->
  let f := roundFlt p (int64_to_double z) in
  let st1 := MkState (next st + 1) ({[ next st ]} ∪ live st) (log st) in
  let st2 := MkState (next st + 1 + 1) ({[ next st + 1 ]} ∪ ({[ next st ]} ∪ live st)) (log st) in
  convert2 (Some tI) (At a (CInt z)) tF st
    = Ok (GV (Some tF) (At (next st) (CFloat f)), true) st1 /\
  convert2 (Some tF) (At (next st) (CFloat f)) tI st1
    = Ok (GV (Some tI) (At (next st + 1) (CInt z)), true) st2.
Proof.
  intros HI HF Hptr Hbits Hr Hr64 Hp Hrep f st1 st2.
  destruct tI as [pI iI sI], tF as [pF iF sF]. simpl in HI, HF, Hptr. subst sI sF.
  assert (E1 : (pI =? pF) = false) by (apply Z.eqb_neq; exact Hptr).
  assert (E2 : (pF =? pI) = false) by (apply Z.eqb_neq; congruence).
  split.
  - cbn -[wrapInt roundFlt int64_to_double]. rewrite E1.
    cbn -[wrapInt roundFlt int64_to_double].
    unfold bind, initializeStorage, alloc, TypeFloat_set, ret.
    cbn -[wrapInt roundFlt int64_to_double].
    rewrite (wrapInt_inRange 64 true z) by (lia || exact Hr64). reflexivity.
  - cbn -[wrapInt roundFlt int64_to_double double_to_int64]. rewrite E2.
    cbn -[wrapInt roundFlt int64_to_double double_to_int64].
    unfold bind, initializeStorage, alloc, TypeInt_set, ret.
    cbn -[wrapInt roundFlt int64_to_double double_to_int64].
    subst f. rewrite (int_float_int p z Hp Hr64 Hrep).
    cbn -[wrapInt]. rewrite (wrapInt_inRange bits signed z Hbits Hr). reflexivity.
Qed.

Lemma int_float_round_trip_witness :
  convert2 (Some tFloat) (At 100 (CFloat (roundFlt 24 (int64_to_double 16777216)))) tInt32
    (MkState 101 ({[ 100 ]} ∪ ∅) [])
  = Ok (GV (Some tInt32) (At 101 (CInt 16777216)), true)
       (MkState 102 ({[ 101 ]} ∪ ({[ 100 ]} ∪ ∅)) []).
Proof.
  refine (proj2 (int_float_round_trip tInt32 tFloat 32 true 24 16777216 11 st0
                   eq_refl eq_refl _ _ _ _ _ _)).
  - simpl. lia.
  - lia.
  - simpl. lia.
  - simpl. lia.
  - lia.
  - exists 1, 24. simpl. lia.
Defined.


(** ** Inheritance views *)

Lemma sub_inj (off : Z) : Inj (=) (=) (fun k : Z => k - off).
Proof. intros x y H. lia. Qed.

Lemma addrOf_offsetStorage (v : Storage) (off : Z) :
  addrOf (offsetStorage v off) = addrOf v + off.
Proof.
  destruct v as [|a c]; simpl.
  - destruct (off =? 0) eqn:E; simpl; [apply Z.eqb_eq in E|]; lia.
  - destruct c; simpl; try reflexivity;
      (destruct (off =? 0) eqn:E; simpl; [apply Z.eqb_eq in E|]; lia).
Qed.

(** A word read through the view at offset [k] is the word of the source at
    offset [off + k]. *)
Lemma readField_offsetStorage (t t' : option QiType) (v : Storage) (off k : Z) :
  readField (GV t (offsetStorage v off)) k = readField (GV t' v) (off + k).
Proof.
  unfold readField; simpl.
  destruct v as [|a c]; simpl.
  - now destruct (off =? 0).
  - destruct c; simpl; try (now destruct (off =? 0)).
    unfold shiftMem.
    pose proof (sub_inj off) as Hinj.
    replace k with ((fun k => k - off) (off + k)) at 1 by lia.
    apply (lookup_kmap (fun k => k - off)).
Qed.

Section ConvertFacts.

Variable toValue : QiType -> Storage -> DynamicValue.t.
Variable fromValue : QiType -> DynamicValue.t -> M Storage.
Variable infoString : QiType -> string.

(** C5.  For a source whose type is an [ObjectType] (and not one of the two
    wrapper types) and a target of another type that is not the dynamic
    type: when [inherits] answers an offset, [convert2] and [convert]
    return, without touching the state, a view that does not own its
    storage, whose handle is the source handle plus the offset and through
    which every word reads as in the source; when [inherits] answers [-1]
    the step is skipped: [convert2] ends with the empty value and [convert]
    goes through the dynamic intermediate. *)
Theorem inheritance_view (ty T : QiType) (parents : list (string * Z))
    (v : Storage) (st : State) :
  tshape ty = ShObject parents ->
  tptr ty <> tptr T ->
  tinfo T <> genericValueInfo ->
  tinfo ty <> genericValueInfo ->
  tinfo ty <> genericObjectInfo ->
  tinfo ty <> tinfo T ->
  let off := inherits parents T in
  let view := GV (Some T) (offsetStorage v off) in
  (off <> -1 ->
     convert2 (Some ty) v T st = Ok (view, false) st /\
     convert toValue fromValue infoString (Some ty) v T st = Ok (view, false) st /\
     addrOf (value view) = addrOf v + off /\
     forall k, readField view k = readField (GV (Some ty) v) (off + k)) /\
  (off = -1 ->
     convert2 (Some ty) v T st = Ok (emptyValue, false) st /\
     convert toValue fromValue infoString (Some ty) v T st =
       ((if bool_decide (DynamicValue.type (toValue ty v) = DynamicValue.Invalid)
         then logWarning ("Cast error " +:+ infoString ty +:+ " -> " +:+ infoString T)
         else ret tt) ;;
        storage <- fromValue T (toValue ty v) ;;
        ret (GV (Some T) storage, true))%qi st).
Proof.
  intros Hshape Hptr HTgv Hgv Hgo Hinfo off view.
  destruct ty as [pS iS sS], T as [pT iT sT]. simpl in Hshape, Hptr, HTgv, Hgv, Hgo, Hinfo.
  subst sS.
  assert (E1 : (pS =? pT) = false) by (apply Z.eqb_neq; exact Hptr).
  assert (E2 : (iT =? genericValueInfo)%string = false) by (apply String.eqb_neq; exact HTgv).
  assert (E3 : (iS =? genericValueInfo)%string = false) by (apply String.eqb_neq; exact Hgv).
  assert (E4 : (iS =? genericObjectInfo)%string = false) by (apply String.eqb_neq; exact Hgo).
  assert (E5 : (iS =? iT)%string = false) by (apply String.eqb_neq; exact Hinfo).
  assert (E6 : (iT =? iS)%string = false) by (apply String.eqb_neq; congruence).
  assert (C2 : convert2 (Some (MkType pS iS (ShObject parents))) v (MkType pT iT sT) st =
               if negb (off =? -1) then Ok (view, false) st else Ok (emptyValue, false) st).
  { destruct v as [|a c]; cbn -[inherits]; rewrite E1; cbn -[inherits];
      destruct (bool_decide (Kind.Object = kind (MkType pT iT sT)));
      cbn -[inherits]; rewrite ?E2, ?E3, ?E4, ?E5; cbn -[inherits];
      fold off; destruct (off =? -1); reflexivity. }
  assert (C1 : convert toValue fromValue infoString (Some (MkType pS iS (ShObject parents))) v
                 (MkType pT iT sT) st =
               if negb (off =? -1) then Ok (view, false) st
               else ((if bool_decide (DynamicValue.type (toValue (MkType pS iS (ShObject parents)) v)
                                      = DynamicValue.Invalid)
                      then logWarning ("Cast error " +:+ infoString (MkType pS iS (ShObject parents))
                                       +:+ " -> " +:+ infoString (MkType pT iT sT))
                      else ret tt) ;;
                     storage <- fromValue (MkType pT iT sT)
                                  (toValue (MkType pS iS (ShObject parents)) v) ;;
                     ret (GV (Some (MkType pT iT sT)) storage, true))%qi st).
  { destruct v as [|a c]; cbn -[inherits]; rewrite E2, E3, E4, E6; cbn -[inherits];
      fold off; destruct (off =? -1); reflexivity. }
  split; intros Hoff.
  - assert (E : (off =? -1) = false) by (apply Z.eqb_neq; exact Hoff).
    rewrite C2, C1, E. simpl negb. cbv iota.
    repeat split.
    + apply addrOf_offsetStorage.
    + intros k. apply readField_offsetStorage.
  - rewrite C2, C1, Hoff. simpl. split; reflexivity.
Qed.

(** C6.  On the path of last resort (the target is not the dynamic type,
    the source type is neither wrapper, the two types differ, no inheritance
    applies), when the source has no valid dynamic intermediate the warning
    is logged and [fromValue] is still called on that intermediate: the
    storage it returns is the result, flagged as owning new storage. *)
Theorem convert_fallback_invalid (ty T : QiType) (v storage : Storage) (st st' : State) :
  tinfo T <> genericValueInfo ->
  tinfo ty <> genericValueInfo ->
  tinfo ty <> genericObjectInfo ->
  tinfo T <> tinfo ty ->
  (forall parents, tshape ty = ShObject parents -> inherits parents T = -1) ->
  DynamicValue.type (toValue ty v) = DynamicValue.Invalid ->
  fromValue T (toValue ty v) (castErrorLogged infoString ty T st) = Ok storage st' ->
  convert toValue fromValue infoString (Some ty) v T st
    = Ok (GV (Some T) storage, true) st'.
Proof.
  intros HTgv Hgv Hgo Hinfo Hinh Hinv Hfrom.
  assert (E2 : (tinfo T =? genericValueInfo)%string = false) by (apply String.eqb_neq; exact HTgv).
  assert (E3 : (tinfo ty =? genericValueInfo)%string = false) by (apply String.eqb_neq; exact Hgv).
  assert (E4 : (tinfo ty =? genericObjectInfo)%string = false) by (apply String.eqb_neq; exact Hgo).
  assert (E6 : (tinfo T =? tinfo ty)%string = false) by (apply String.eqb_neq; exact Hinfo).
  assert (Hthrough :
    ((if bool_decide (DynamicValue.type (toValue ty v) = DynamicValue.Invalid)
      then logWarning ("Cast error " +:+ infoString ty +:+ " -> " +:+ infoString T)
      else ret tt) ;;
     s <- fromValue T (toValue ty v) ;; ret (GV (Some T) s, true))%qi st
    = Ok (GV (Some T) storage, true) st').
  { rewrite bool_decide_eq_true_2 by exact Hinv.
    unfold bind, logWarning. fold (castErrorLogged infoString ty T st).
    now rewrite Hfrom. }
  destruct v as [|a c]; cbn -[inherits]; rewrite E2, E3, E4, E6;
    (destruct (tshape ty) as [| | |parents|] eqn:Hs; try exact Hthrough;
     rewrite (Hinh parents eq_refl); exact Hthrough).
Qed.

End ConvertFacts.

Lemma inheritance_view_witness :
  convert2 (Some tDerived) derivedObject tBase st0
    = Ok (GV (Some tBase) (offsetStorage derivedObject 8), false) st0 /\
  readField (GV (Some tBase) (offsetStorage derivedObject 8)) 0 = Some 33.
Proof.
  split; [|reflexivity].
  apply (proj1 (inheritance_view toValue_invalid fromValue_zero tinfo
                  tDerived tBase [("Base", 8)] derivedObject st0
                  eq_refl ltac:(simpl; lia) ltac:(discriminate) ltac:(discriminate)
                  ltac:(discriminate) ltac:(discriminate))).
  vm_compute. discriminate.
Defined.

Lemma convert_fallback_invalid_witness :
  convert toValue_invalid fromValue_zero tinfo (Some tString)
    (At 20 (CString "abc")) tInt32 st0
  = Ok (GV (Some tInt32) (At 100 (CInt 0)), true)
       (MkState 101 ({[ 100 ]} ∪ ∅) ["Cast error std::string -> int"]).
Proof.
  apply (convert_fallback_invalid toValue_invalid fromValue_zero tinfo tString tInt32).
  - discriminate.
  - discriminate.
  - discriminate.
  - discriminate.
  - intros parents H. discriminate H.
  - reflexivity.
  - reflexivity.
Defined.

(** ** Structural induction on storage *)

Lemma Storage_ind' (P : Storage -> Prop) :
  P Null ->
  (forall a c, sub_holds P c -> P (At a c)) ->
  forall s, P s.
Proof.
  intros HN HA. fix IH 1. intros [|a c]; [exact HN|].
  apply HA. destruct c as [z|f|str|et elems|t v|t v|mem|]; simpl; try exact I.
  - induction elems as [|e elems IHl]; constructor; [apply IH | exact IHl].
  - apply IH.
  - apply IH.
Qed.

(** ** Results that do not own their storage *)

Lemma viewOf_here (T : QiType) (ty : option QiType) (v : Storage) : viewOf T ty v (GV ty v).
Proof. exists ty, v. split; [constructor | now left]. Qed.

Lemma viewOf_offset (T t : QiType) (parents : list (string * Z)) (v : Storage) :
  tshape t = ShObject parents ->
  negb (inherits parents T =? -1) = true ->
  viewOf T (Some t) v (GV (Some T) (offsetStorage v (inherits parents T))).
Proof.
  intros Hs Hi. exists (Some t), v. split; [constructor|].
  right. exists t, parents. repeat split; try assumption.
  apply negb_true_iff, Z.eqb_neq in Hi. exact Hi.
Qed.

Lemma viewOf_value (T t : QiType) (a : Z) (mt : option QiType) (mv : Storage)
    (r : GenericValue) :
  (tinfo t =? genericValueInfo)%string = true ->
  r = emptyValue \/ viewOf T mt mv r ->
  r = emptyValue \/ viewOf T (Some t) (At a (CValue mt mv)) r.
Proof.
  intros Ht [->|(ty' & v' & Hh & Hr)]; [now left|].
  right. exists ty', v'. split; [|exact Hr].
  apply holds_value; [now apply String.eqb_eq | exact Hh].
Qed.

Lemma viewOf_object (T t : QiType) (a : Z) (ot : option QiType) (ov : Storage)
    (r : GenericValue) :
  (tinfo t =? genericObjectInfo)%string = true ->
  r = emptyValue \/ viewOf T ot ov r ->
  r = emptyValue \/ viewOf T (Some t) (At a (CObject ot ov)) r.
Proof.
  intros Ht [->|(ty' & v' & Hh & Hr)]; [now left|].
  right. exists ty', v'. split; [|exact Hr].
  apply holds_object; [now apply String.eqb_eq | exact Hh].
Qed.

Lemma convert2_not_owning (v : Storage) : forall ty T st r st',
  tinfo T <> genericValueInfo ->
  convert2 ty v T st = Ok (r, false) st' ->
  st' = st /\ (r = emptyValue \/ viewOf T ty v r).
Proof.
  induction v as [|a c IHc] using Storage_ind'; intros ty T st r st' HT H;
    assert (E : (tinfo T =? genericValueInfo)%string = false) by (now apply String.eqb_neq).
  - run H. repeat (split_match H; run H).
    all: try (leaf H; split; [reflexivity|];
              first [ left; reflexivity
                    | right; apply viewOf_here
                    | right; apply viewOf_offset; assumption ]).
  - run H. repeat (split_match H; run H).
    all: try (leaf H; split; [reflexivity|];
              first [ left; reflexivity
                    | right; apply viewOf_here
                    | right; apply viewOf_offset; assumption ]).
    all: try (simpl in IHc; apply IHc in H; [|assumption];
              destruct H as [-> Hv]; split; [reflexivity|];
              first [ apply viewOf_value; assumption | apply viewOf_object; assumption ]).
Qed.

Section NotOwning.

Variable toValue : QiType -> Storage -> DynamicValue.t.
Variable fromValue : QiType -> DynamicValue.t -> M Storage.
Variable infoString : QiType -> string.

Lemma convert_not_owning (v : Storage) : forall ty T st r st',
  tinfo T <> genericValueInfo ->
  convert toValue fromValue infoString ty v T st = Ok (r, false) st' ->
  st' = st /\ (r = emptyValue \/ viewOf T ty v r).
Proof.
  induction v as [|a c IHc] using Storage_ind'; intros ty T st r st' HT H;
    assert (E : (tinfo T =? genericValueInfo)%string = false) by (now apply String.eqb_neq).
  - run H. repeat (split_match H; run H).
    all: try (leaf H; split; [reflexivity|];
              first [ left; reflexivity
                    | right; apply viewOf_here
                    | right; apply viewOf_offset; assumption ]).
  - run H. repeat (split_match H; run H).
    all: try (leaf H; split; [reflexivity|];
              first [ left; reflexivity
                    | right; apply viewOf_here
                    | right; apply viewOf_offset; assumption ]).
    all: try (simpl in IHc; apply IHc in H; [|assumption];
              destruct H as [-> Hv]; split; [reflexivity|];
              first [ apply viewOf_value; assumption | apply viewOf_object; assumption ]).
Qed.

Lemma convert_dynamic_target (v : Storage) ty T st :
  tinfo T = genericValueInfo ->
  convert toValue fromValue infoString ty v T st =
  Ok (GV (Some T) (At (next st) (CValue ty v)), false) (allocated st).
Proof.
  intros HT.
  assert (E : (tinfo T =? genericValueInfo)%string = true) by (now apply String.eqb_eq).
  destruct v as [|a c]; cbn; rewrite E; reflexivity.
Qed.

(** Whenever [convert2] or [convert] returns with the flag [false] for a
    target that is not the dynamic type, the state is unchanged (nothing was
    allocated) and the result is the empty value ([convert2] found no rule)
    or a view of storage that existed before the call: the source pair or
    a pair held in it through wrappers, returned as it is, or, for an
    object type that inherits from the target, returned as a value of the
    target type whose handle is the handle of that pair moved by the offset
    [inherits] answers. *)
Theorem not_owning_is_view (ty : option QiType) (v : Storage) (T : QiType)
    (st : State) (r : GenericValue) (st' : State) :
  tinfo T <> genericValueInfo ->
  convert2 ty v T st = Ok (r, false) st' \/
  convert toValue fromValue infoString ty v T st = Ok (r, false) st' ->
  st' = st /\ (r = emptyValue \/ viewOf T ty v r).
Proof.
  intros HT [H|H].
  - eapply convert2_not_owning; eassumption.
  - eapply convert_not_owning; eassumption.
Qed.

End NotOwning.

Lemma not_owning_is_view_witness :
  st0 = st0 /\
  (GV (Some tBase) (offsetStorage derivedObject 8) = emptyValue \/
   viewOf tBase (Some tDerived) derivedObject (GV (Some tBase) (offsetStorage derivedObject 8))).
Proof.
  apply (not_owning_is_view toValue_invalid fromValue_zero tinfo
           (Some tDerived) derivedObject tBase st0
           (GV (Some tBase) (offsetStorage derivedObject 8)) st0
           ltac:(discriminate) (or_introl eq_refl)).
Defined.

(** C2 (the code at the failing input).  Converting an [int] to the
    dynamic type, [convert2] and [convert] both return the flag [false],
    and yet a cell was allocated: the returned handle is the fresh address
    100, live after the call, and no address of the source.  The result is
    no view of existing storage, and a holder that goes by the flag never
    releases it. *)
Lemma owns_false_yet_allocated :
  exists r st',
    convert2 (Some tInt32) (At 11 (CInt 1)) tDynamic st0 = Ok (r, false) st' /\
    convert toValue_invalid fromValue_zero tinfo (Some tInt32) (At 11 (CInt 1)) tDynamic st0
      = Ok (r, false) st' /\
    next st' = next st0 + 1 /\
    addrOf (value r) = next st0 /\
    addrOf (value r) ∈ live st' /\
    addrOf (value r) ∉ addrs (At 11 (CInt 1)).
Proof.
  exists (GV (Some tDynamic) (At 100 (CValue (Some tInt32) (At 11 (CInt 1))))), (allocated st0).
  split; [reflexivity|]. split; [reflexivity|]. simpl.
  split; [reflexivity|]. split; [reflexivity|]. split; [set_solver|].
  intros H. apply list_elem_of_In in H. simpl in H. destruct H as [H|[]]. discriminate H.
Qed.

(** ** Cloning *)

Lemma grows_refl st : grows st st.
Proof. split; [lia | intros x Hx; now left]. Qed.

Lemma grows_trans st1 st2 st3 : grows st1 st2 -> grows st2 st3 -> grows st1 st3.
Proof.
  intros [H1 H1'] [H2 H2']. split; [lia|].
  intros x Hx. destruct (H2' x Hx) as [Hx2|Hx2]; [|right; lia].
  destruct (H1' x Hx2) as [Hx1|Hx1]; [now left | right; lia].
Qed.

Lemma bind_ok {A B} (m : M A) (k : A -> M B) st b st' :
  bind m k st = Ok b st' -> exists a st1, m st = Ok a st1 /\ k a st1 = Ok b st'.
Proof. unfold bind. destruct (m st) as [a st1|w]; [eauto | discriminate]. Qed.

Lemma alloc_spec c st s' st' :
  alloc c st = Ok s' st' ->
  s' = At (next st) c /\ next st' = next st + 1 /\ live st' = {[ next st ]} ∪ live st.
Proof. unfold alloc. intros H. injection H as <- <-. auto. Qed.

Lemma alloc_grows c st s' st' :
  alloc c st = Ok s' st' -> grows st st' /\ live st ⊆ live st' /\ next st ∈ live st'.
Proof.
  intros H. apply alloc_spec in H as (-> & Hn & Hl). rewrite Hl.
  split; [split; [lia|]|split; set_solver].
  intros x Hx. rewrite Hl in Hx. apply elem_of_union in Hx as [Hx|Hx]; [|now left].
  apply elem_of_singleton in Hx. right; lia.
Qed.

Lemma fresh_weaken st st1 st2 st' s :
  fresh st1 st2 s -> next st <= next st1 -> next st2 <= next st' -> fresh st st' s.
Proof.
  unfold fresh. intros H H1 H2. eapply Forall_impl; [exact H|]. simpl. intros x Hx. lia.
Qed.

(** A cell whose content refers to no further storage, once allocated. *)
Lemma alloc_cloned a c0 c st s' st' :
  alloc c st = Ok s' st' ->
  addrs (At (next st) c) = [next st] ->
  dataOf (At (next st) c) = dataOf (At a c0) ->
  cloned (At a c0) st s' st'.
Proof.
  intros H Ha Hd. pose proof (alloc_grows _ _ _ _ H) as (Hg & Hsub & Hin).
  apply alloc_spec in H as (-> & Hn & Hl).
  unfold cloned, fresh. rewrite Ha.
  repeat (split; [assumption|]). 
  split; [constructor; [lia|constructor]|].
  split; [constructor; [exact Hin|constructor]|exact Hd].
Qed.

Lemma cloned_elems elems :
  Forall (fun e => forall st s' st', cloneStorage e st = Ok s' st' -> cloned e st s' st') elems ->
  forall acc st outs st',
    foldM (fun acc e => e' <- cloneStorage e ;; ret (acc ++ [e'])) elems acc st = Ok outs st' ->
    grows st st' /\ live st ⊆ live st' /\
    exists news, outs = acc ++ news /\
      map dataOf news = map dataOf elems /\
      Forall (fresh st st') news /\
      Forall (fun e' => Forall (fun x => x ∈ live st') (addrs e')) news.
Proof.
  induction 1 as [|e elems He Hes IH]; intros acc st outs st' H; simpl in H.
  - injection H as <- <-. split; [apply grows_refl|]. split; [set_solver|].
    exists []. rewrite app_nil_r. repeat split; constructor.
  - apply bind_ok in H as (acc' & st1 & H1 & H2).
    apply bind_ok in H1 as (e' & st1' & Hc & Hr). injection Hr as <- <-.
    apply He in Hc as (Hg1 & Hs1 & Hf1 & Hl1 & Hd1).
    apply IH in H2 as (Hg2 & Hs2 & news & -> & Hd2 & Hf2 & Hl2).
    split; [eapply grows_trans; eassumption|]. split; [set_solver|].
    exists (e' :: news). rewrite <- app_assoc. simpl.
    split; [reflexivity|]. split; [now rewrite Hd1, Hd2|].
    split; constructor.
    + eapply fresh_weaken; [exact Hf1|lia|apply Hg2].
    + eapply Forall_impl; [exact Hf2|]. intros s Hs. simpl in Hs.
      eapply fresh_weaken; [exact Hs|apply Hg1|lia].
    + eapply Forall_impl; [exact Hl1|]. simpl. set_solver.
    + exact Hl2.
Qed.

Lemma cloneStorage_cloned s : forall st s' st',
  cloneStorage s st = Ok s' st' -> cloned s st s' st'.
Proof.
  induction s as [|a c IHc] using Storage_ind'; intros st s' st' H.
  - discriminate.
  - destruct c as [z|f|str|et elems|[t|] v|[t|] v|mem|]; simpl in H, IHc;
      try (eapply alloc_cloned; [exact H|reflexivity|reflexivity]).
    + apply bind_ok in H as (outs & st1 & Hf & Ha).
      apply (cloned_elems _ IHc) in Hf as (Hg & Hs & news & -> & Hd & Hfr & Hl).
      simpl in Ha.
      pose proof (alloc_grows _ _ _ _ Ha) as (Hg' & Hs' & Hin).
      apply alloc_spec in Ha as (-> & Hn & Hlv).
      split; [eapply grows_trans; eassumption|]. split; [set_solver|].
      split; [|split].
      * unfold fresh. simpl. constructor; [destruct Hg; lia|].
        apply Forall_concat, Forall_map.
        eapply Forall_impl; [exact Hfr|]. intros s Hs0. simpl in Hs0.
        eapply fresh_weaken; [exact Hs0|lia|lia].
      * simpl. constructor; [exact Hin|].
        apply Forall_concat, Forall_map.
        eapply Forall_impl; [exact Hl|]. intros s Hs0. simpl in Hs0.
        eapply Forall_impl; [exact Hs0|]. simpl. set_solver.
      * simpl. now rewrite Hd.
    + apply bind_ok in H as (v' & st1 & Hc & Ha).
      apply IHc in Hc as (Hg & Hs & Hfr & Hl & Hd).
      pose proof (alloc_grows _ _ _ _ Ha) as (Hg' & Hs' & Hin).
      apply alloc_spec in Ha as (-> & Hn & Hlv).
      split; [eapply grows_trans; eassumption|]. split; [set_solver|].
      split; [|split].
      * unfold fresh. simpl. constructor; [destruct Hg; lia|].
        eapply Forall_impl; [exact Hfr|]. simpl. intros; lia.
      * simpl. constructor; [exact Hin|].
        eapply Forall_impl; [exact Hl|]. simpl. set_solver.
      * simpl. now rewrite Hd.
    + apply bind_ok in H as (v' & st1 & Hc & Ha).
      apply IHc in Hc as (Hg & Hs & Hfr & Hl & Hd).
      pose proof (alloc_grows _ _ _ _ Ha) as (Hg' & Hs' & Hin).
      apply alloc_spec in Ha as (-> & Hn & Hlv).
      split; [eapply grows_trans; eassumption|]. split; [set_solver|].
      split; [|split].
      * unfold fresh. simpl. constructor; [destruct Hg; lia|].
        eapply Forall_impl; [exact Hfr|]. simpl. intros; lia.
      * simpl. constructor; [exact Hin|].
        eapply Forall_impl; [exact Hl|]. simpl. set_solver.
      * simpl. now rewrite Hd.
Qed.

Lemma clone_elems_outcome elems :
  Forall (fun e => forall st, outcome dataOf (cloneStorage e st)
                              = if clonable e then Some (dataOf e) else None) elems ->
  forall acc st,
    outcome (map dataOf)
      (foldM (fun acc e => e' <- cloneStorage e ;; ret (acc ++ [e'])) elems acc st)
    = if forallb clonable elems then Some (map dataOf acc ++ map dataOf elems) else None.
Proof.
  induction 1 as [|e elems He Hes IH]; intros acc st; simpl.
  - now rewrite app_nil_r.
  - unfold bind at 1. unfold bind at 1. specialize (He st).
    destruct (cloneStorage e st) as [e' st1|w]; simpl in He.
    + destruct (clonable e); [|discriminate]. injection He as He. simpl.
      unfold ret at 1. rewrite IH. destruct (forallb clonable elems); [|reflexivity].
      rewrite map_app, <- app_assoc. simpl. now rewrite He.
    + destruct (clonable e); [discriminate|]. reflexivity.
Qed.

Lemma forallb_clonable elems : forallb clonableD (map dataOf elems) = forallb clonable elems.
Proof. induction elems as [|e elems IH]; simpl; [reflexivity|]. now rewrite IH. Qed.

Lemma cloneStorage_outcome s : forall st,
  outcome dataOf (cloneStorage s st) = if clonable s then Some (dataOf s) else None.
Proof.
  induction s as [|a c IHc] using Storage_ind'; intros st.
  - reflexivity.
  - destruct c as [z|f|str|et elems|[t|] v|[t|] v|mem|]; try reflexivity; simpl in IHc.
    + pose proof (clone_elems_outcome elems IHc [] st) as Hf.
      change (clonable (At a (CList et elems))) with (forallb clonableD (map dataOf elems)).
      rewrite forallb_clonable.
      simpl. unfold bind at 1.
      destruct (foldM _ elems [] st) as [outs st1|w]; simpl in Hf.
      * destruct (forallb clonable elems); [|discriminate]. injection Hf as Hf.
        simpl. now rewrite Hf.
      * destruct (forallb clonable elems); [discriminate|reflexivity].
    + change (clonable (At a (CValue (Some t) v))) with (clonable v).
      simpl. unfold bind. specialize (IHc st).
      destruct (cloneStorage v st) as [v' st1|w]; simpl in IHc.
      * destruct (clonable v); [|discriminate]. injection IHc as IHc. simpl. now rewrite IHc.
      * destruct (clonable v); [discriminate|reflexivity].
    + change (clonable (At a (CObject (Some t) v))) with (clonable v).
      simpl. unfold bind. specialize (IHc st).
      destruct (cloneStorage v st) as [v' st1|w]; simpl in IHc.
      * destruct (clonable v); [|discriminate]. injection IHc as IHc. simpl. now rewrite IHc.
      * destruct (clonable v); [discriminate|reflexivity].
Qed.

Lemma cloneStorage_ok s st :
  clonable s = true -> exists s' st', cloneStorage s st = Ok s' st' /\ cloned s st s' st'.
Proof.
  intros Hc. pose proof (cloneStorage_outcome s st) as Ho. rewrite Hc in Ho.
  destruct (cloneStorage s st) as [s' st'|w] eqn:E; [|discriminate].
  exists s', st'. split; [reflexivity|]. now apply cloneStorage_cloned.
Qed.

Section CopyFacts.

Variable toValue : QiType -> Storage -> DynamicValue.t.
Variable fromValue : QiType -> DynamicValue.t -> M Storage.
Variable infoString : QiType -> string.

Lemma convert_same_type (T : QiType) (s : Storage) (st : State) :
  tinfo T <> genericValueInfo -> tinfo T <> genericObjectInfo ->
  convert toValue fromValue infoString (Some T) s T st = Ok (GV (Some T) s, false) st.
Proof.
  intros H1 H2.
  apply String.eqb_neq in H1, H2.
  destruct s as [|a c]; cbn; rewrite H1, H2, String.eqb_refl; reflexivity.
Qed.

(** [convertCopy] performs [convert] and clones its result
    exactly when the flag is [false].  For a value of a type [T] that is
    neither the dynamic type nor the [GenericObject] wrapper, whose storage
    can be cloned and lies among the addresses already handed out,
    [convert] to [T] is the identity view and [convertCopy] returns its
    clone: a value of type [T] with the same data, made of fresh, live
    cells, none of which is a cell of the source. *)
Theorem convertCopy_same_type (T : QiType) (s : Storage) (st : State) :
  tinfo T <> genericValueInfo ->
  tinfo T <> genericObjectInfo ->
  clonable s = true ->
  Forall (fun a => a < next st) (addrs s) ->
  (forall v T0 st0,
     convertCopy toValue fromValue infoString v T0 st0 =
     match convert toValue fromValue infoString (type v) (value v) T0 st0 with
     | Ok (r, true) st1 => Ok r st1
     | Ok (r, false) st1 => clone r st1
     | Fault w => Fault w
     end) /\
  exists s' st',
    convert toValue fromValue infoString (Some T) s T st = Ok (GV (Some T) s, false) st /\
    convertCopy toValue fromValue infoString (GV (Some T) s) T st
      = Ok (GV (Some T) s') st' /\
    dataOf s' = dataOf s /\
    Forall (fun a => next st <= a < next st' /\ a ∈ live st' /\ a ∉ addrs s) (addrs s').
Proof.
  intros H1 H2 Hc Hold. split.
  - intros v T0 st0. unfold convertCopy, bind.
    destruct (convert _ _ _ _ _ _ st0) as [[r [|]] st1|w]; reflexivity.
  - destruct (cloneStorage_ok s st Hc) as (s' & st' & Hcl & Hg & Hsub & Hfr & Hlive & Hd).
    exists s', st'. split; [now apply convert_same_type|]. split.
    + unfold convertCopy, bind. cbn [type value].
      rewrite (convert_same_type T s st H1 H2). cbn [fst snd].
      unfold clone, bind. cbn [type value]. now rewrite Hcl.
    + split; [exact Hd|].
      unfold fresh in Hfr. rewrite Forall_forall in *.
      intros a Ha. split; [now apply Hfr|]. split; [now apply Hlive|].
      intros Hin. specialize (Hold a Hin). specialize (Hfr a Ha). simpl in *. lia.
Qed.

End CopyFacts.

Lemma convertCopy_same_type_witness :
  exists s' st',
    convertCopy toValue_invalid fromValue_zero tinfo (GV (Some tListInt) listOfInts)
      tListInt st0 = Ok (GV (Some tListInt) s') st' /\
    dataOf s' = dataOf listOfInts.
Proof.
  destruct (proj2 (convertCopy_same_type toValue_invalid fromValue_zero tinfo
                     tListInt listOfInts st0
                     ltac:(discriminate) ltac:(discriminate) eq_refl
                     ltac:(repeat constructor)))
    as (s' & st' & _ & H & Hd & _).
  exists s', st'. split; assumption.
Defined.

(** C4 (the code at the failing input).  For a value [v] of the dynamic
    type, [convert] to that same type wraps [v] in a new [GenericValue]
    before any same-type test (where [convert2] returns [v] itself), and
    [convertCopy] returns a clone of that wrapper: a value with one more
    level of wrapping than [v] has, hence not value-equal to [v]; the
    wrapper [convert] allocated, the cell 100, is no part of the result and
    is still live. *)
Lemma convertCopy_dynamic_wraps_again :
  exists r st',
    convertCopy toValue_invalid fromValue_zero tinfo
      (GV (Some tDynamic) (At 20 (CValue (Some tInt32) (At 21 (CInt 7))))) tDynamic st0
      = Ok r st' /\
    type r = Some tDynamic /\
    dataOf (value r) = DValue (Some tDynamic) (DValue (Some tInt32) (DInt 7)) /\
    dataOf (value r) <> dataOf (At 20 (CValue (Some tInt32) (At 21 (CInt 7)))) /\
    convert2 (Some tDynamic) (At 20 (CValue (Some tInt32) (At 21 (CInt 7)))) tDynamic st0
      = Ok (GV (Some tDynamic) (At 20 (CValue (Some tInt32) (At 21 (CInt 7)))), false) st0 /\
    (100 ∈ live st' /\ 100 ∉ addrs (value r)).
Proof.
  exists (GV (Some tDynamic)
            (At 103 (CValue (Some tDynamic)
                       (At 102 (CValue (Some tInt32) (At 101 (CInt 7))))))).
  eexists. split; [reflexivity|]. split; [reflexivity|]. split; [reflexivity|].
  split; [simpl; discriminate|]. split; [reflexivity|].
  split; [vm_compute; set_solver|].
  intros H. apply list_elem_of_In in H. simpl in H.
  destruct H as [H|[H|[H|[]]]]; discriminate H.
Qed.

(** ** Conversions do not depend on the state *)

Lemma dataOf_list s et ds :
  dataOf s = DList et ds -> exists a elems, s = At a (CList et elems) /\ ds = map dataOf elems.
Proof.
  destruct s as [|a c]; [discriminate|].
  destruct c as [z|f|str|et' elems|[t|] v|[t|] v|mem|]; try discriminate.
  simpl. intros H. injection H as -> <-. eauto.
Qed.

Lemma pushBack_outcome l val st :
  outcome absV (pushBack l val st) = pushed (absV l) (dataOf (value val)).
Proof.
  unfold pushBack, bind, pushed.
  pose proof (cloneStorage_outcome (value val) st) as Hc. unfold clonable in Hc.
  destruct (cloneStorage (value val) st) as [e st1|w]; simpl in Hc.
  - destruct (clonableD (dataOf (value val))); [|discriminate]. injection Hc as Hc.
    unfold absV at 2. cbn [snd fst].
    destruct (value l) as [|a c]; [reflexivity|].
    destruct c as [z|f|str|et' elems|[t|] v|[t|] v|mem|]; try reflexivity.
    unfold ret, absV, outcome. cbn [type value dataOf fst snd].
    rewrite map_app. cbn [map]. congruence.
  - destruct (clonableD (dataOf (value val))); [discriminate|]. reflexivity.
Qed.

Lemma convertElement_outcome conv nc sT dT l e st :
  outcome absV (convertElement conv nc sT dT l e st) =
  if negb nc then pushed (absV l) (dataOf e)
  else match outcome absR (conv (Some sT) e dT st) with
       | Some ((_, d), _) => pushed (absV l) d
       | None => None
       end.
Proof.
  unfold convertElement. cbn [type value]. destruct (negb nc).
  - apply pushBack_outcome.
  - unfold bind at 1. destruct (conv (Some sT) e dT st) as [[c o] s1|w]; [|reflexivity].
    simpl. unfold bind at 1.
    pose proof (pushBack_outcome l c s1) as Hp.
    destruct (pushBack l c s1) as [l' s2|w]; simpl in Hp; rewrite <- Hp; [|reflexivity].
    unfold bind. destruct o; reflexivity.
Qed.

Lemma foldM_indep {A} (f : GenericValue -> A -> M GenericValue) (elems : list A) :
  Forall (fun e => forall l1 l2 st1 st2, absV l1 = absV l2 ->
                   outcome absV (f l1 e st1) = outcome absV (f l2 e st2)) elems ->
  forall l1 l2 st1 st2, absV l1 = absV l2 ->
    outcome absV (foldM f elems l1 st1) = outcome absV (foldM f elems l2 st2).
Proof.
  induction 1 as [|e elems He Hes IH]; intros l1 l2 st1 st2 Hl; simpl.
  - unfold ret, outcome. congruence.
  - unfold bind. specialize (He l1 l2 st1 st2 Hl).
    destruct (f l1 e st1) as [l1' s1|w1], (f l2 e st2) as [l2' s2|w2];
      unfold outcome in He; try discriminate; [|reflexivity].
    apply IH. congruence.
Qed.

Lemma loop_indep nc sT dT elems :
  Forall (fun e => forall ty T st1 st2,
            outcome absR (convert2 ty e T st1) = outcome absR (convert2 ty e T st2)) elems ->
  forall l1 l2 st1 st2, absV l1 = absV l2 ->
    outcome absV (foldM (convertElement convert2 nc sT dT) elems l1 st1) =
    outcome absV (foldM (convertElement convert2 nc sT dT) elems l2 st2).
Proof.
  intros H. apply foldM_indep.
  eapply Forall_impl; [exact H|]. simpl. intros e He l1 l2 st1 st2 Hl.
  rewrite !convertElement_outcome, Hl, (He (Some sT) dT st1 st2). reflexivity.
Qed.

Lemma outcome_list_result (r1 r2 : Res GenericValue) :
  outcome absV r1 = outcome absV r2 ->
  outcome absR match r1 with Ok a s => Ok (a, true) s | Fault w => Fault w end =
  outcome absR match r2 with Ok a s => Ok (a, true) s | Fault w => Fault w end.
Proof.
  destruct r1 as [a1 s1|w1], r2 as [a2 s2|w2]; unfold outcome, absR; simpl; congruence.
Qed.

Lemma convert2_indep (v : Storage) : forall ty T,
  indep absR (convert2 ty v T) (convert2 ty v T).
Proof.
  unfold indep.
  induction v as [|a c IHc] using Storage_ind'; intros ty T st1 st2.
  - rung. repeat (split_goal; rung). all: try reflexivity.
  - rung. repeat (split_goal; rung). all: try reflexivity.
    all: try (simpl in IHc; apply IHc).
    apply outcome_list_result, loop_indep; [exact IHc | reflexivity].
Qed.


Lemma destroy_grows v st u st' : destroy v st = Ok u st' -> grows st st' /\ next st' = next st.
Proof.
  unfold destroy. intros H. injection H as Hu Hs. subst st'. split; [|reflexivity].
  split; simpl; [lia|]. intros x Hx. left. set_solver.
Qed.

Lemma pushBack_ok l val st l' st' :
  pushBack l val st = Ok l' st' ->
  exists a et elems b,
    value l = At a (CList et elems) /\
    cloneStorage (value val) st = Ok b st' /\
    l' = GV (type l) (At a (CList et (elems ++ [b]))).
Proof.
  unfold pushBack. intros H. apply bind_ok in H as (b & st1 & Hc & H).
  destruct (value l) as [|a c]; [discriminate|].
  destruct c as [z|f|str|et elems|t v|t v|mem|]; try discriminate.
  injection H as <- <-. eauto 10.
Qed.


Lemma grows_allocated st : grows st (allocated st).
Proof.
  split; simpl; [lia|]. intros x Hx.
  apply elem_of_union in Hx as [Hx|Hx]; [|now left].
  apply elem_of_singleton in Hx. right; lia.
Qed.

Lemma bounded_weaken lo hi lo' hi' s :
  bounded lo hi s -> lo' <= lo -> hi <= hi' -> bounded lo' hi' s.
Proof.
  unfold bounded. intros H H1 H2. eapply Forall_impl; [exact H|]. simpl. intros; lia.
Qed.

Lemma bounded_push lo hi a et elems b :
  bounded lo hi (At a (CList et elems)) -> bounded lo hi b ->
  bounded lo hi (At a (CList et (elems ++ [b]))).
Proof.
  unfold bounded. simpl. intros H Hb. apply Forall_cons in H as [Ha H].
  constructor; [exact Ha|].
  rewrite map_app, concat_app. apply Forall_app. split; [exact H|].
  simpl. now rewrite app_nil_r.
Qed.

Lemma pushBack_grows l val st l' st' lo :
  pushBack l val st = Ok l' st' ->
  lo <= next st -> bounded lo (next st) (value l) ->
  grows st st' /\ bounded lo (next st') (value l').
Proof.
  intros H Hlo Hb.
  apply pushBack_ok in H as (a & et & elems & b & Hl & Hc & ->).
  apply cloneStorage_cloned in Hc as (Hg & _ & Hf & _ & _).
  split; [exact Hg|]. simpl. rewrite Hl in Hb.
  apply bounded_push.
  - eapply bounded_weaken; [exact Hb|lia|apply Hg].
  - eapply bounded_weaken; [exact Hf|lia|lia].
Qed.

Lemma convertElement_grows nc sT dT l e st l' st' lo :
  conv_grows e ->
  convertElement convert2 nc sT dT l e st = Ok l' st' ->
  lo <= next st -> bounded lo (next st) (value l) ->
  grows st st' /\ bounded lo (next st') (value l').
Proof.
  intros He H Hlo Hb. unfold convertElement in H. cbn [type value] in H.
  destruct (negb nc).
  - eapply pushBack_grows; eassumption.
  - apply bind_ok in H as ([c o] & s1 & Hc & H).
    apply bind_ok in H as (l1 & s2 & Hp & H).
    apply bind_ok in H as (u & s3 & Hd & H).
    injection H as <- <-. cbn [fst snd] in *.
    apply He in Hc as [Hg1 _].
    eapply pushBack_grows in Hp as [Hg2 Hb2];
      [|exact (Z.le_trans _ _ _ Hlo (proj1 Hg1))
       |eapply bounded_weaken; [exact Hb|lia|apply Hg1]].
    assert (Hg3 : grows s2 s3 /\ next s3 = next s2).
    { destruct o; [eapply destroy_grows; exact Hd|].
      injection Hd as _ <-. split; [apply grows_refl|reflexivity]. }
    destruct Hg3 as [Hg3 Hn3].
    split; [eapply grows_trans; [exact Hg1|eapply grows_trans; eassumption]|].
    now rewrite Hn3.
Qed.

Lemma loop_grows nc sT dT elems :
  Forall conv_grows elems ->
  forall l st l' st' lo,
    foldM (convertElement convert2 nc sT dT) elems l st = Ok l' st' ->
    lo <= next st -> bounded lo (next st) (value l) ->
    grows st st' /\ bounded lo (next st') (value l').
Proof.
  induction 1 as [|e elems He Hes IH]; intros l st l' st' lo H Hlo Hb; simpl in H.
  - injection H as <- <-. split; [apply grows_refl|exact Hb].
  - apply bind_ok in H as (l1 & s1 & H1 & H2).
    eapply convertElement_grows in H1 as [Hg1 Hb1]; [|exact He|exact Hlo|exact Hb].
    eapply IH in H2 as [Hg2 Hb2]; [|exact (Z.le_trans _ _ _ Hlo (proj1 Hg1))|exact Hb1].
    split; [eapply grows_trans; eassumption|exact Hb2].
Qed.

Lemma convert2_grows (v : Storage) : conv_grows v.
Proof.
  unfold conv_grows.
  induction v as [|a c IHc] using Storage_ind'; intros ty T st r o st' H.
  - run H. repeat (split_match H; run H).
    all: try (leaf' H; split;
              [first [apply grows_refl | apply grows_allocated]
              |intros Ho; first [discriminate Ho | constructor; [simpl; lia|constructor]]]).
  - run H. repeat (split_match H; run H).
    all: try (leaf' H; split;
              [first [apply grows_refl | apply grows_allocated]
              |intros Ho; first [discriminate Ho | constructor; [simpl; lia|constructor]]]).
    all: try (simpl in IHc; eapply IHc; exact H).
    leaf' H.
    assert (elems0 = []) as ->.
    { unfold zeroContent in Heqc1. destruct (tshape T) as [| | | |[]]; congruence. }
    destruct (loop_grows _ _ _ _ IHc _ _ _ _ (next st) Heqr0) as [Hg Hb].
    { simpl. lia. }
    { constructor; [simpl; lia|constructor]. }
    split; [eapply grows_trans; [apply grows_allocated|exact Hg]|].
    intros _. exact Hb.
Qed.


Lemma foldM_cons {A B} (f : B -> A -> M B) (a : A) (l : list A) (b : B) (st : State) :
  foldM f (a :: l) b st =
  match f b a st with Ok b' st' => foldM f l b' st' | Fault w => Fault w end.
Proof. reflexivity. Qed.

Lemma loop_converts (sT dT tL : QiType) (st : State) (elems : list Storage) :
  Forall (elemConverts sT dT st) elems ->
  forall a acc s,
  exists outs st',
    foldM (convertElement convert2 (negb (String.eqb (tinfo sT) (tinfo dT))) sT dT)
          elems (GV (Some tL) (At a (CList dT acc))) s
      = Ok (GV (Some tL) (At a (CList dT (acc ++ outs)))) st' /\
    grows s st' /\
    Forall2 (elemConverted sT dT st st') elems outs.
Proof.
  remember (negb (String.eqb (tinfo sT) (tinfo dT))) as nc eqn:Hnc.
  induction 1 as [|e elems He Hes IH]; intros a acc s.
  - exists [], s. rewrite app_nil_r. split; [reflexivity|]. split; [apply grows_refl|constructor].
  - unfold elemConverts in He.
    destruct (String.eqb (tinfo sT) (tinfo dT)) eqn:Einfo; simpl in Hnc; subst nc.
    + (* pushed directly *)
      destruct (cloneStorage_ok e s He) as (b & s1 & Hcl & Hcd).
      destruct (IH a (acc ++ [b]) s1) as (outs & st' & Hf & Hg & H2).
      exists (b :: outs), st'. split; [|split].
      * rewrite foldM_cons.
        replace (convertElement convert2 false sT dT
                   (GV (Some tL) (At a (CList dT acc))) e s)
          with (Ok (GV (Some tL) (At a (CList dT (acc ++ [b])))) s1).
        -- rewrite Hf. now rewrite <- app_assoc.
        -- unfold convertElement, pushBack, bind. cbn [negb type value].
           now rewrite Hcl.
      * eapply grows_trans; [apply Hcd|exact Hg].
      * constructor; [|exact H2]. unfold elemConverted. rewrite Einfo.
        split; [eauto|apply Hcd].
    + (* converted, pushed, destroyed *)
      destruct He as (c0 & o0 & st1 & Hc0 & Hclo).
      pose proof (convert2_indep e (Some sT) dT s st) as Hi. rewrite Hc0 in Hi.
      destruct (convert2 (Some sT) e dT s) as [[c o] s1|w] eqn:Hc; [|discriminate].
      unfold outcome, absR, absV in Hi. cbn [fst snd] in Hi.
      assert (Hd : dataOf (value c) = dataOf (value c0)) by congruence.
      assert (Ho : o = o0) by congruence.
      assert (Hclo' : clonable (value c) = true) by (unfold clonable in *; now rewrite Hd).
      destruct (cloneStorage_ok (value c) s1 Hclo') as (b & s2 & Hcl & Hcd).
      pose proof (convert2_grows e _ _ _ _ _ _ Hc) as [Hg1 Hfr].
      remember (if o then MkState (next s2) (live s2 ∖ list_to_set (addrs (value c))) (log s2)
                else s2) as s3 eqn:Hs3.
      assert (Hg3 : grows s2 s3 /\ next s3 = next s2).
      { subst s3. destruct o; [|split; [apply grows_refl|reflexivity]].
        split; [|reflexivity]. split; simpl; [lia|]. intros x Hx. left. set_solver. }
      assert (Hdes : (if o then destroy c else ret ()) s2 = Ok () s3).
      { subst s3. now destruct o. }
      destruct (IH a (acc ++ [b]) s3) as (outs & st' & Hf & Hg & H2).
      exists (b :: outs), st'. split; [|split].
      * rewrite foldM_cons.
        replace (convertElement convert2 true sT dT
                   (GV (Some tL) (At a (CList dT acc))) e s)
          with (Ok (GV (Some tL) (At a (CList dT (acc ++ [b])))) s3).
        -- rewrite Hf. now rewrite <- app_assoc.
        -- unfold convertElement, pushBack, bind. cbn [negb type value].
           rewrite Hc. cbn [fst snd]. rewrite Hcl. cbn [value]. unfold ret at 1.
           now rewrite Hdes.
      * eapply grows_trans; [exact Hg1|].
        eapply grows_trans; [apply Hcd|].
        eapply grows_trans; [apply Hg3|exact Hg].
      * constructor; [|exact H2]. unfold elemConverted. rewrite Einfo.
        exists s, c, o, s1, s2. split; [exact Hc|]. split; [exact Hcl|].
        split; [apply Hcd|]. split.
        -- intros Hot. specialize (Hfr Hot). unfold fresh in Hfr.
           rewrite Forall_forall in *. intros x Hx Hlive.
           specialize (Hfr x Hx).
           destruct Hg as [Hn Hl]. destruct (Hl x Hlive) as [Hin|Hge].
           ++ rewrite Hs3, Hot in Hin. simpl in Hin.
              apply elem_of_difference in Hin as [_ Hnot].
              apply Hnot. apply elem_of_list_to_set. exact Hx.
           ++ destruct Hg3 as [_ Hn3]. destruct Hcd as [[Hn12 _] _]. simpl in *. lia.
        -- intros c0' o0' s0' Hc0'. rewrite Hc0 in Hc0'. split; congruence.
Qed.

(** Converting a list of [N] elements to another list type,
    when every element converts to a value the list can copy, returns a new
    list (flag [true]) of [N] elements in the same order.  With identical
    element types no element is converted: each is pushed as it is.
    Otherwise the element at position [i] of the result is the copy pushed
    of the conversion of the [i]-th source element, and every conversion
    that reported owning its storage has been destroyed when the list
    conversion returns. *)
Theorem list_conversion (sL tL sT dT : QiType) (a : Z) (elems : list Storage) (st : State) :
  kind sL = Kind.List ->
  tshape tL = ShList dT ->
  tptr sL <> tptr tL ->
  Forall (elemConverts sT dT st) elems ->
  exists outs st',
    convert2 (Some sL) (At a (CList sT elems)) tL st
      = Ok (GV (Some tL) (At (next st) (CList dT outs)), true) st' /\
    length outs = length elems /\
    Forall2 (elemConverted sT dT st st') elems outs.
Proof.
  intros Hk Hs Hp Hel.
  destruct (loop_converts sT dT tL st elems Hel (next st) [] (allocated st))
    as (outs & st' & Hf & Hg & H2).
  exists outs, st'. split; [|split; [symmetry; eapply Forall2_length; exact H2|exact H2]].
  destruct sL as [pS iS sS], tL as [pT iT sT']. simpl in Hk, Hs, Hp. subst sT'.
  assert (E1 : (pS =? pT) = false) by (apply Z.eqb_neq; exact Hp).
  unfold kind in Hk. simpl in Hk.
  destruct sS as [| |e'| |k]; try discriminate Hk; [|subst k].
  - cbn -[foldM]. rewrite E1. cbn -[foldM].
    unfold bind, initializeStorage, alloc, TypeList_elementType, ret. cbn -[foldM].
    rewrite (bool_decide_eq_true_2 _ (eq_refl Kind.List)).
    fold (allocated st). rewrite Hf. reflexivity.
  - cbn -[foldM]. rewrite E1. cbn -[foldM].
    unfold bind, initializeStorage, alloc, TypeList_elementType, ret. cbn -[foldM].
    rewrite (bool_decide_eq_true_2 _ (eq_refl Kind.List)).
    fold (allocated st). rewrite Hf. reflexivity.
Qed.

Lemma list_conversion_witness :
  exists outs st',
    convert2 (Some tListInt) listOfInts tListDouble st0
      = Ok (GV (Some tListDouble) (At 100 (CList tDouble outs)), true) st' /\
    length outs = 3%nat.
Proof.
  destruct (list_conversion tListInt tListDouble tInt32 tDouble 10
              [At 11 (CInt 1); At 12 (CInt 2); At 13 (CInt 3)] st0
              eq_refl eq_refl ltac:(simpl; lia))
    as (outs & st' & H & Hl & _).
  - repeat constructor.
    + eexists _, _, _. split; [cbv; reflexivity | reflexivity].
    + eexists _, _, _. split; [cbv; reflexivity | reflexivity].
    + eexists _, _, _. split; [cbv; reflexivity | reflexivity].
  - exists outs, st'. split; [exact H | exact Hl].
Defined.

(** C3 (the code at the failing input).  Converting a list of [int] to a
    list of the dynamic type: the conversion of the first element allocates
    the cell 101 (it was not live before, it is live after) and reports
    [false], so the loop does not destroy it; the list takes its own copy,
    and when the list conversion has returned the cell 101 is still live
    and is no cell of the result: a per-element conversion that allocated
    new storage was never destroyed. *)
Lemma converted_wrapper_not_destroyed :
  exists c st1 r st',
    convert2 (Some tInt32) (At 11 (CInt 1)) tDynamic (allocated st0) = Ok (c, false) st1 /\
    addrOf (value c) = 101 /\
    (101 ∉ live (allocated st0)) /\ (101 ∈ live st1) /\
    convert2 (Some tListInt) listOfInts tListDynamic st0 = Ok (r, true) st' /\
    101 ∈ live st' /\
    101 ∉ addrs (value r).
Proof.
  eexists _, _, _, _. split; [cbv; reflexivity|]. split; [reflexivity|].
  split; [vm_compute; set_solver|]. split; [vm_compute; set_solver|].
  split; [vm_compute; reflexivity|]. split; [vm_compute; set_solver|].
  intros H. apply list_elem_of_In in H. vm_compute in H.
  repeat (destruct H as [H|H]; [discriminate H|]). exact H.
Qed.

(** ** Further properties of the embedded code *)

(** *** What [convert2] does to the state *)

(** A result of [convert2] flagged as owning its storage is made only of
    cells the call allocated: it shares no cell with the source, nor with
    anything that was allocated before the call. *)
Theorem convert2_owned_result_fresh (ty : option QiType) (v : Storage) (T : QiType)
    (st : State) (c : GenericValue) (st' : State) :
  convert2 ty v T st = Ok (c, true) st' ->
  fresh st st' (value c) /\
  (Forall (fun a => a < next st) (addrs v) ->
   Forall (fun x => x ∉ addrs v) (addrs (value c))).
Proof.
  intros H. pose proof (proj2 (convert2_grows v _ _ _ _ _ _ H) eq_refl) as Hf.
  split; [exact Hf|].
  intros Hold. unfold fresh in Hf. rewrite Forall_forall in *.
  intros x Hx Hin. specialize (Hf x Hx). specialize (Hold x Hin). simpl in *. lia.
Qed.

Lemma convert2_owned_result_fresh_witness :
  fresh st0 (allocated st0) (At 100 (CFloat (MkFlt 1 0))) /\
  (Forall (fun a => a < next st0) (addrs (At 11 (CInt 1))) ->
   Forall (fun x => x ∉ addrs (At 11 (CInt 1))) (addrs (At 100 (CFloat (MkFlt 1 0))))).
Proof.
  apply (convert2_owned_result_fresh (Some tInt32) (At 11 (CInt 1)) tFloat st0
           (GV (Some tFloat) (At 100 (CFloat (MkFlt 1 0)))) (allocated st0)).
  vm_compute. reflexivity.
Defined.

Lemma keeps_refl st : keeps st st.
Proof. intros x _ H. exact H. Qed.

Lemma keeps_trans st1 st2 st3 :
  next st1 <= next st2 -> keeps st1 st2 -> keeps st2 st3 -> keeps st1 st3.
Proof. intros Hn H1 H2 x Hx Hl. apply H2; [lia|]. now apply H1. Qed.

Lemma keeps_allocated st : keeps st (allocated st).
Proof. intros x _ H. simpl. set_solver. Qed.

Lemma allLive_push st a et elems b :
  allLive st (At a (CList et elems)) -> allLive st b ->
  allLive st (At a (CList et (elems ++ [b]))).
Proof.
  unfold allLive. simpl. intros H Hb. apply Forall_cons in H as [Ha H].
  constructor; [exact Ha|].
  rewrite map_app, concat_app. apply Forall_app. split; [exact H|].
  simpl. now rewrite app_nil_r.
Qed.

(** One turn of the loop: the cells of the list under construction stay
    live.  The only cells released are those of the converted element,
    which were handed out after every cell the list had and before every
    cell of the copy pushed. *)
Lemma convertElement_keeps nc sT dT l e st l' st' lo :
  conv_grows e -> conv_keeps e ->
  convertElement convert2 nc sT dT l e st = Ok l' st' ->
  bounded lo (next st) (value l) -> allLive st (value l) ->
  keeps st st' /\ allLive st' (value l').
Proof.
  intros Hg Hk H Hb Hl. unfold convertElement in H. cbn [type value] in H.
  destruct (negb nc).
  - apply pushBack_ok in H as (a & et & elems & b & Hv & Hc & ->).
    apply cloneStorage_cloned in Hc as (_ & Hsub & _ & Hlb & _).
    split; [intros x _ Hx; set_solver|]. simpl. rewrite Hv in Hl.
    apply allLive_push; [|exact Hlb].
    eapply Forall_impl; [exact Hl|]. simpl. set_solver.
  - apply bind_ok in H as ([c o] & s1 & Hc & H).
    apply bind_ok in H as (l1 & s2 & Hp & H).
    apply bind_ok in H as (u & s3 & Hd & H).
    injection H as <- <-. cbn [fst snd] in *.
    pose proof (Hg _ _ _ _ _ _ Hc) as [Hg1 Hfr].
    apply Hk in Hc as [Hk1 _].
    apply pushBack_ok in Hp as (a & et & elems & b & Hv & Hcl & ->).
    apply cloneStorage_cloned in Hcl as (Hg2 & Hsub & Hfb & Hlb & _).
    assert (Hold : Forall (fun x => x ∈ live s2 /\ x < next st) (addrs (value l))).
    { unfold allLive, bounded in *. rewrite Forall_forall in *.
      intros x Hx. specialize (Hl x Hx). specialize (Hb x Hx). simpl in Hb.
      split; [|lia]. apply Hsub, Hk1; [lia|exact Hl]. }
    assert (Hnew : Forall (fun x => x ∈ live s2 /\ next s1 <= x) (addrs b)).
    { unfold fresh in Hfb. rewrite Forall_forall in *.
      intros x Hx. specialize (Hlb x Hx). specialize (Hfb x Hx). simpl in *.
      split; [exact Hlb|lia]. }
    assert (Hrel : forall x, x ∈ live s2 -> (x < next st \/ next s1 <= x) -> x ∈ live s3).
    { intros x Hx Hr. destruct o.
      - unfold destroy in Hd. injection Hd as _ <-. simpl.
        apply elem_of_difference. split; [exact Hx|].
        rewrite elem_of_list_to_set. intros Hin.
        specialize (Hfr eq_refl). unfold fresh in Hfr. rewrite Forall_forall in Hfr.
        specialize (Hfr x Hin). simpl in Hfr. lia.
      - injection Hd as _ <-. exact Hx. }
    split.
    + intros x Hx Hlx. apply Hrel; [|left; exact Hx]. apply Hsub, Hk1; assumption.
    + simpl. rewrite Hv in Hold. apply allLive_push.
      * eapply Forall_impl; [exact Hold|]. simpl. intros x [H1 H2].
        apply Hrel; [exact H1|now left].
      * eapply Forall_impl; [exact Hnew|]. simpl. intros x [H1 H2].
        apply Hrel; [exact H1|now right].
Qed.

Lemma loop_keeps nc sT dT elems :
  Forall conv_grows elems -> Forall conv_keeps elems ->
  forall l st l' st' lo,
    foldM (convertElement convert2 nc sT dT) elems l st = Ok l' st' ->
    lo <= next st -> bounded lo (next st) (value l) -> allLive st (value l) ->
    keeps st st' /\ allLive st' (value l').
Proof.
  intros Hg Hk. revert Hk.
  induction Hg as [|e elems He Hes IH]; intros Hk l st l' st' lo H Hlo Hb Hl; simpl in H.
  - injection H as <- <-. split; [apply keeps_refl|exact Hl].
  - apply Forall_cons in Hk as [Hke Hks].
    apply bind_ok in H as (l1 & s1 & H1 & H2).
    pose proof (convertElement_grows _ _ _ _ _ _ _ _ lo He H1 Hlo Hb) as [Hg1 Hb1].
    eapply convertElement_keeps in H1 as [Hk1 Hl1]; [|exact He|exact Hke|exact Hb|exact Hl].
    eapply IH in H2 as [Hk2 Hl2];
      [|exact Hks|exact (Z.le_trans _ _ _ Hlo (proj1 Hg1))|exact Hb1|exact Hl1].
    split; [|exact Hl2].
    eapply keeps_trans; [apply Hg1|exact Hk1|exact Hk2].
Qed.

Lemma convert2_keeps (v : Storage) : conv_keeps v.
Proof.
  unfold conv_keeps.
  induction v as [|a c IHc] using Storage_ind'; intros ty T st r o st' H.
  - run H. repeat (split_match H; run H).
    all: try (leaf' H; split;
              [first [apply keeps_refl | apply keeps_allocated]
              |intros Ho; first [discriminate Ho | constructor; [simpl; set_solver|constructor]]]).
  - run H. repeat (split_match H; run H).
    all: try (leaf' H; split;
              [first [apply keeps_refl | apply keeps_allocated]
              |intros Ho; first [discriminate Ho | constructor; [simpl; set_solver|constructor]]]).
    all: try (simpl in IHc; eapply IHc; exact H).
    leaf' H.
    assert (elems0 = []) as ->.
    { unfold zeroContent in Heqc1. destruct (tshape T) as [| | | |[]]; congruence. }
    assert (Hg : Forall conv_grows elems).
    { apply Forall_forall. intros e _. apply convert2_grows. }
    destruct (loop_keeps _ _ _ _ Hg IHc _ _ _ _ (next st) Heqr0) as [Hk Hl].
    { simpl. lia. }
    { constructor; [simpl; lia|constructor]. }
    { constructor; [simpl; set_solver|constructor]. }
    split; [|intros _; exact Hl].
    eapply keeps_trans; [|apply keeps_allocated|exact Hk]. simpl. lia.
Qed.

(** [convert2] releases nothing that existed before the call: a cell that
    was handed out and live when the call started is live when it returns.
    The only storage [destroy] is applied to, in the loop over a list, is
    storage the element conversion itself allocated. *)
Theorem convert2_releases_nothing_old (ty : option QiType) (v : Storage) (T : QiType)
    (st : State) (c : GenericValue) (o : bool) (st' : State) (x : Z) :
  convert2 ty v T st = Ok (c, o) st' ->
  x < next st -> x ∈ live st -> x ∈ live st'.
Proof. intros H. exact (proj1 (convert2_keeps v _ _ _ _ _ _ H) x). Qed.

Lemma convert2_releases_nothing_old_witness :
  (11 : Z) ∈ live (allocated (MkState 100 {[ 11 ]} [])).
Proof.
  apply (convert2_releases_nothing_old (Some tInt32) (At 11 (CInt 1)) tFloat
           (MkState 100 {[ 11 ]} []) (GV (Some tFloat) (At 100 (CFloat (MkFlt 1 0)))) true
           (allocated (MkState 100 {[ 11 ]} [])) 11).
  - vm_compute. reflexivity.
  - simpl. lia.
  - simpl. set_solver.
Defined.

(** A result flagged as owning its storage is usable: every cell of it,
    the elements of a converted list included, is live when [convert2]
    returns; destroying the converted elements after the push never
    releases a cell of the list. *)
Theorem convert2_owned_result_live (ty : option QiType) (v : Storage) (T : QiType)
    (st : State) (c : GenericValue) (st' : State) :
  convert2 ty v T st = Ok (c, true) st' ->
  allLive st' (value c).
Proof. intros H. exact (proj2 (convert2_keeps v _ _ _ _ _ _ H) eq_refl). Qed.

Lemma convert2_owned_result_live_witness :
  allLive (MkState 104 ({[ 103 ]} ∪ ({[ 102 ]} ∪ ({[ 101 ]} ∪ ({[ 100 ]} ∪ ∅)))) [])
    (At 100 (CList tInt32 [At 101 (CInt 1); At 102 (CInt 2); At 103 (CInt 3)])).
Proof.
  apply (convert2_owned_result_live (Some tListInt) listOfInts tListInt' st0
           (GV (Some tListInt')
              (At 100 (CList tInt32 [At 101 (CInt 1); At 102 (CInt 2); At 103 (CInt 3)])))).
  vm_compute. reflexivity.
Defined.

(** The log of warnings is untouched by a conversion. *)
Lemma clone_elems_log elems :
  Forall (fun e => forall st s' st', cloneStorage e st = Ok s' st' -> log st' = log st) elems ->
  forall acc st outs st',
    foldM (fun acc e => e' <- cloneStorage e ;; ret (acc ++ [e'])) elems acc st = Ok outs st' ->
    log st' = log st.
Proof.
  induction 1 as [|e elems He Hes IH]; intros acc st outs st' H; simpl in H.
  - now injection H as _ <-.
  - apply bind_ok in H as (acc' & s1 & H1 & H2).
    apply bind_ok in H1 as (e' & s1' & Hc & Hr). injection Hr as _ <-.
    apply IH in H2. apply He in Hc. congruence.
Qed.

Lemma cloneStorage_log s : forall st s' st', cloneStorage s st = Ok s' st' -> log st' = log st.
Proof.
  induction s as [|a c IHc] using Storage_ind'; intros st s' st' H; [discriminate|].
  destruct c as [z|f|str|et elems|[t|] v|[t|] v|mem|]; simpl in H, IHc;
    try (injection H as _ <-; reflexivity).
  - apply bind_ok in H as (outs & st1 & Hf & Ha).
    injection Ha as _ <-. simpl. eapply clone_elems_log; eassumption.
  - apply bind_ok in H as (v' & st1 & Hc & Ha). injection Ha as _ <-. simpl. eauto.
  - apply bind_ok in H as (v' & st1 & Hc & Ha). injection Ha as _ <-. simpl. eauto.
Qed.

Lemma convertElement_log nc sT dT l e st l' st' :
  (forall ty T st r o st', convert2 ty e T st = Ok (r, o) st' -> log st' = log st) ->
  convertElement convert2 nc sT dT l e st = Ok l' st' -> log st' = log st.
Proof.
  intros He H. unfold convertElement in H. cbn [type value] in H.
  destruct (negb nc).
  - apply pushBack_ok in H as (a & et & els & b & _ & Hc & _).
    now apply cloneStorage_log in Hc.
  - apply bind_ok in H as ([c o] & s1 & Hc & H).
    apply bind_ok in H as (l1 & s2 & Hp & H).
    apply bind_ok in H as (u & s3 & Hd & H).
    injection H as _ <-. cbn [fst snd] in *.
    apply He in Hc.
    apply pushBack_ok in Hp as (a & et & els & b & _ & Hcl & _).
    apply cloneStorage_log in Hcl.
    assert (log s3 = log s2).
    { destruct o; [unfold destroy in Hd|unfold ret in Hd]; injection Hd as _ <-; reflexivity. }
    congruence.
Qed.

Lemma loop_log nc sT dT elems :
  Forall (fun e => forall ty T st r o st',
            convert2 ty e T st = Ok (r, o) st' -> log st' = log st) elems ->
  forall l st l' st',
    foldM (convertElement convert2 nc sT dT) elems l st = Ok l' st' -> log st' = log st.
Proof.
  induction 1 as [|e elems He Hes IH]; intros l st l' st' H; simpl in H.
  - now injection H as _ <-.
  - apply bind_ok in H as (l1 & s1 & H1 & H2).
    apply IH in H2. eapply convertElement_log in H1; [|exact He]. congruence.
Qed.

Lemma convert2_log (v : Storage) : forall ty T st r o st',
  convert2 ty v T st = Ok (r, o) st' -> log st' = log st.
Proof.
  induction v as [|a c IHc] using Storage_ind'; intros ty T st r o st' H.
  - run H. repeat (split_match H; run H).
    all: try (leaf' H; reflexivity).
  - run H. repeat (split_match H; run H).
    all: try (leaf' H; reflexivity).
    all: try (simpl in IHc; eapply IHc; exact H).
    leaf' H. eapply loop_log in Heqr0; [|exact IHc]. exact Heqr0.
Qed.

(** [convert2] writes no warning, whatever it returns: unlike the path of
    last resort of [convert], a conversion that found no rule ends without
    a trace in the log. *)
Theorem convert2_never_warns (ty : option QiType) (v : Storage) (T : QiType)
    (st : State) (r : GenericValue) (o : bool) (st' : State) :
  convert2 ty v T st = Ok (r, o) st' -> log st' = log st.
Proof. apply convert2_log. Qed.

Lemma convert2_never_warns_witness :
  convert2 (Some tString) (At 20 (CString "abc")) tInt32 st0 = Ok (emptyValue, false) st0 /\
  log st0 = log st0.
Proof.
  split; [reflexivity|].
  apply (convert2_never_warns (Some tString) (At 20 (CString "abc")) tInt32 st0
           emptyValue false st0).
  reflexivity.
Defined.

(** *** What [convert2] and [convert] return *)

Lemma convert2_same_instance (T : QiType) (x : Storage) (st : State) :
  convert2 (Some T) x T st = Ok (GV (Some T) x, false) st.
Proof. destruct x as [|a c]; cbn; rewrite Z.eqb_refl; reflexivity. Qed.

Lemma loop_type nc sT dT elems : forall l st l' st',
  foldM (convertElement convert2 nc sT dT) elems l st = Ok l' st' -> type l' = type l.
Proof.
  induction elems as [|e elems IH]; intros l st l' st' H; simpl in H.
  - injection H as <- <-. reflexivity.
  - apply bind_ok in H as (l1 & s1 & H1 & H2).
    apply IH in H2. rewrite H2. clear H2 IH.
    unfold convertElement in H1. cbn [type value] in H1.
    destruct (negb nc).
    + apply pushBack_ok in H1 as (a & et & els & b & _ & _ & ->). reflexivity.
    + apply bind_ok in H1 as ([c o] & s2 & _ & H).
      apply bind_ok in H as (l2 & s3 & Hp & H).
      apply bind_ok in H as (u & s4 & _ & H).
      injection H as <- <-.
      apply pushBack_ok in Hp as (a & et & els & b & _ & _ & ->). reflexivity.
Qed.

Lemma convert2_result_cases (v : Storage) : forall ty T st r o st',
  convert2 ty v T st = Ok (r, o) st' ->
  (r = emptyValue /\ o = false /\ st' = st) \/
  (exists t, type r = Some t /\ describes t T /\ (o = true -> t = T)).
Proof.
  induction v as [|a c IHc] using Storage_ind'; intros ty T st r o st' H.
  - run H. repeat (split_match H; run H).
    all: try (leaf' H; first
      [ left; repeat split; reflexivity
      | right; eexists; split; [reflexivity|]; split;
        [ first [ left; reflexivity | right; reflexivity
                | left; now apply Z.eqb_eq | right; now apply String.eqb_eq ]
        | first [ reflexivity | discriminate | intros; reflexivity ] ] ]).
  - run H. repeat (split_match H; run H).
    all: try (leaf' H; first
      [ left; repeat split; reflexivity
      | right; eexists; split; [reflexivity|]; split;
        [ first [ left; reflexivity | right; reflexivity
                | left; now apply Z.eqb_eq | right; now apply String.eqb_eq ]
        | first [ reflexivity | discriminate | intros; reflexivity ] ] ]).
    all: try (simpl in IHc; eapply IHc; exact H).
    leaf' H. apply loop_type in Heqr0. cbn [type] in Heqr0.
    right. exists T. split; [exact Heqr0|]. split; [now left|reflexivity].
Qed.

(** [convert2] ends in one of two ways.  Either no rule applied: the
    result is the empty value [GenericValue()], the flag is [false] and the
    state is as before (nothing allocated, nothing logged).  Or the result
    has a type, which is the target instance or an instance with the info
    of the target, and is the target instance itself when the flag is
    [true]. *)
Theorem convert2_result_type (ty : option QiType) (v : Storage) (T : QiType)
    (st : State) (r : GenericValue) (o : bool) (st' : State) :
  convert2 ty v T st = Ok (r, o) st' ->
  (r = emptyValue /\ o = false /\ st' = st) \/
  (exists t, type r = Some t /\ describes t T /\ (o = true -> t = T)).
Proof. apply convert2_result_cases. Qed.

Lemma convert2_result_type_witness :
  (emptyValue = emptyValue /\ false = false /\ st0 = st0) \/
  (exists t, type emptyValue = Some t /\ describes t tInt32 /\ (false = true -> t = tInt32)).
Proof.
  apply (convert2_result_type (Some tString) (At 20 (CString "abc")) tInt32 st0
           emptyValue false st0).
  reflexivity.
Defined.

Lemma convert2_again (v : Storage) : forall ty T st r o st',
  convert2 ty v T st = Ok (r, o) st' ->
  type r <> None ->
  convert2 (type r) (value r) T st' = Ok (r, false) st'.
Proof.
  induction v as [|a c IHc] using Storage_ind'; intros ty T st r o st' H Hr;
    pose proof H as H0.
  - run H. repeat (split_match H; run H).
    all: try (leaf' H; cbn [type value] in *;
              first [ exact H0 | apply convert2_same_instance | now contradiction Hr ]).
  - run H. repeat (split_match H; run H).
    all: try (leaf' H; cbn [type value] in *;
              first [ exact H0 | apply convert2_same_instance | now contradiction Hr ]).
    all: try (simpl in IHc; eapply IHc; [exact H|exact Hr]).
    leaf' H. apply loop_type in Heqr0. destruct a0 as [t0 v0]. cbn [type value] in *.
    subst t0. apply convert2_same_instance.
Qed.

(** Converting the result of a successful conversion to the same target
    once more changes nothing: the value itself comes back, flagged as not
    owning new storage, and the state is untouched. *)
Theorem convert2_idempotent (ty : option QiType) (v : Storage) (T : QiType)
    (st : State) (r : GenericValue) (o : bool) (st' : State) :
  convert2 ty v T st = Ok (r, o) st' ->
  type r <> None ->
  convert2 (type r) (value r) T st' = Ok (r, false) st'.
Proof. apply convert2_again. Qed.

Lemma convert2_idempotent_witness :
  convert2 (Some tFloat) (At 100 (CFloat (MkFlt 1 0))) tFloat (allocated st0)
    = Ok (GV (Some tFloat) (At 100 (CFloat (MkFlt 1 0))), false) (allocated st0).
Proof.
  apply (convert2_idempotent (Some tInt32) (At 11 (CInt 1)) tFloat st0
           (GV (Some tFloat) (At 100 (CFloat (MkFlt 1 0)))) true (allocated st0)).
  - vm_compute. reflexivity.
  - discriminate.
Defined.

Section ConvertResults.

Variable toValue : QiType -> Storage -> DynamicValue.t.
Variable fromValue : QiType -> DynamicValue.t -> M Storage.
Variable infoString : QiType -> string.

Lemma convert_result_cases (v : Storage) : forall ty T st r o st',
  convert toValue fromValue infoString ty v T st = Ok (r, o) st' ->
  exists t, type r = Some t /\ tinfo t = tinfo T /\ (o = true -> t = T).
Proof.
  induction v as [|a c IHc] using Storage_ind'; intros ty T st r o st' H.
  - run H. repeat (split_match H; run H).
    all: try (leaf' H; eexists; split; [reflexivity|]; split;
              [ first [ reflexivity | symmetry; now apply String.eqb_eq ]
              | first [ reflexivity | discriminate | intros; reflexivity ] ]).
  - run H. repeat (split_match H; run H).
    all: try (leaf' H; eexists; split; [reflexivity|]; split;
              [ first [ reflexivity | symmetry; now apply String.eqb_eq ]
              | first [ reflexivity | discriminate | intros; reflexivity ] ]).
    all: try (simpl in IHc; eapply IHc; exact H).
Qed.

(** Whenever [convert] returns, the result has a type, and this type has
    the info of the target: unlike [convert2], [convert] never returns the
    empty value.  With the flag [true] the type is the target instance. *)
Theorem convert_result_type (ty : option QiType) (v : Storage) (T : QiType)
    (st : State) (r : GenericValue) (o : bool) (st' : State) :
  convert toValue fromValue infoString ty v T st = Ok (r, o) st' ->
  exists t, type r = Some t /\ tinfo t = tinfo T /\ (o = true -> t = T).
Proof. apply convert_result_cases. Qed.

Lemma convert_again (v : Storage) : forall ty T st r o st',
  tinfo T <> genericValueInfo ->
  tinfo T <> genericObjectInfo ->
  convert toValue fromValue infoString ty v T st = Ok (r, o) st' ->
  convert toValue fromValue infoString (type r) (value r) T st' = Ok (r, false) st'.
Proof.
  induction v as [|a c IHc] using Storage_ind'; intros ty T st r o st' HT1 HT2 H;
    pose proof H as H0;
    assert (E : (tinfo T =? genericValueInfo)%string = false) by (now apply String.eqb_neq).
  - run H. repeat (split_match H; run H).
    all: try (leaf' H; cbn [type value] in *;
              first [ exact H0 | now apply convert_same_type ]).
  - run H. repeat (split_match H; run H).
    all: try (leaf' H; cbn [type value] in *;
              first [ exact H0 | now apply convert_same_type ]).
    all: try (simpl in IHc; eapply IHc; [exact HT1|exact HT2|exact H]).
Qed.

(** For a target that is neither of the two wrapper types, converting the
    result of [convert] to the same target once more returns the value
    itself, flagged as not owning new storage, and leaves the state
    untouched; whatever [fromValue] built on the path of last resort is
    not built again. *)
Theorem convert_idempotent (ty : option QiType) (v : Storage) (T : QiType)
    (st : State) (r : GenericValue) (o : bool) (st' : State) :
  tinfo T <> genericValueInfo ->
  tinfo T <> genericObjectInfo ->
  convert toValue fromValue infoString ty v T st = Ok (r, o) st' ->
  convert toValue fromValue infoString (type r) (value r) T st' = Ok (r, false) st'.
Proof. apply convert_again. Qed.

(** The round trip through the dynamic type.  Converting a value of type
    [T0] to the dynamic type allocates one [GenericValue] that holds the
    pair of the source; converting that back to [T0] returns the original
    handle itself: nothing is copied, nothing is released, and the wrapper
    stays allocated.  [convert2] and [convert] agree on both steps. *)
Theorem dynamic_round_trip (T0 tD : QiType) (v : Storage) (st : State) :
  tinfo tD = genericValueInfo ->
  kind tD = Kind.Dynamic ->
  tinfo T0 <> genericValueInfo ->
  tinfo T0 <> genericObjectInfo ->
  tptr T0 <> tptr tD ->
  let w := GV (Some tD) (At (next st) (CValue (Some T0) v)) in
  convert2 (Some T0) v tD st = Ok (w, false) (allocated st) /\
  convert2 (type w) (value w) T0 (allocated st) = Ok (GV (Some T0) v, false) (allocated st) /\
  convert toValue fromValue infoString (Some T0) v tD st = Ok (w, false) (allocated st) /\
  convert toValue fromValue infoString (type w) (value w) T0 (allocated st)
    = Ok (GV (Some T0) v, false) (allocated st).
Proof.
  intros HD HkD HT1 HT2 Hp w.
  assert (E1 : (tptr T0 =? tptr tD) = false) by (now apply Z.eqb_neq).
  assert (E1' : (tptr tD =? tptr T0) = false) by (apply Z.eqb_neq; congruence).
  assert (E2 : (tinfo tD =? genericValueInfo)%string = true) by (now apply String.eqb_eq).
  assert (E3 : (tinfo T0 =? genericValueInfo)%string = false) by (now apply String.eqb_neq).
  split; [|split; [|split]].
  - destruct v as [|a c]; cbn -[inherits]; rewrite E1, HkD; cbn -[inherits];
      rewrite ?andb_false_r;
      destruct (kind T0) eqn:Hk; cbn -[inherits]; rewrite ?E2; reflexivity.
  - subst w. cbn [type value].
    cbn -[inherits]. rewrite E1', HkD. cbn -[inherits].
    assert (R : convert2 (Some T0) v T0 (allocated st) = Ok (GV (Some T0) v, false) (allocated st))
      by apply convert2_same_instance.
    destruct (kind T0) eqn:Hk; cbn -[inherits]; rewrite ?E3, ?E2; exact R.
  - apply convert_dynamic_target. exact HD.
  - subst w. cbn [type value]. cbn -[inherits]. rewrite E3, E2.
    apply convert_same_type; assumption.
Qed.

(** [convertCopy] never hands out a view.  Its result is the result of
    [convert] when that owns its storage; otherwise it is a clone of it, of
    the same type: made of fresh, live cells, with the same data, and made
    without releasing anything. *)
Theorem convertCopy_never_a_view (v : GenericValue) (T : QiType) (st : State)
    (r : GenericValue) (st' : State) :
  convertCopy toValue fromValue infoString v T st = Ok r st' ->
  exists c o st1,
    convert toValue fromValue infoString (type v) (value v) T st = Ok (c, o) st1 /\
    type r = type c /\
    (o = true -> r = c /\ st' = st1) /\
    (o = false -> cloned (value c) st1 (value r) st').
Proof.
  intros H. unfold convertCopy in H.
  apply bind_ok in H as ([c o] & st1 & Hc & H). cbn [fst snd] in H.
  exists c, o, st1. split; [exact Hc|].
  destruct o.
  - injection H as <- <-. split; [reflexivity|]. split; [auto|discriminate].
  - apply convert_result_cases in Hc as (t & Ht & _).
    unfold clone in H. rewrite Ht in H.
    apply bind_ok in H as (s & st2 & Hcl & H). injection H as <- <-.
    split; [now rewrite Ht|]. split; [discriminate|].
    intros _. now apply cloneStorage_cloned.
Qed.

(** [convertCopy] to the dynamic type leaks: the [GenericValue] that
    [convert] allocates for the target (flag [false]) is cloned, and the
    clone is returned; the cell allocated first is no part of the result
    and is still live when [convertCopy] returns. *)
Theorem convertCopy_dynamic_leaks_wrapper (ty T : QiType) (s : Storage) (st : State) :
  tinfo T = genericValueInfo ->
  clonable s = true ->
  exists r st',
    convertCopy toValue fromValue infoString (GV (Some ty) s) T st = Ok r st' /\
    type r = Some T /\
    dataOf (value r) = DValue (Some ty) (dataOf s) /\
    next st ∈ live st' /\
    next st ∉ addrs (value r).
Proof.
  intros HT Hc.
  set (w := At (next st) (CValue (Some ty) s)).
  assert (Hw : clonable w = true) by exact Hc.
  destruct (cloneStorage_ok w (allocated st) Hw)
    as (s' & st' & Hcl & Hg & Hsub & Hfr & Hlive & Hd).
  exists (GV (Some T) s'), st'. split; [|split; [reflexivity|split; [exact Hd|split]]].
  - unfold convertCopy, bind. cbn [type value].
    rewrite (convert_dynamic_target toValue fromValue infoString s (Some ty) T st HT).
    cbn [fst snd]. unfold clone, bind. cbn [type value]. fold w. now rewrite Hcl.
  - apply Hsub. simpl. set_solver.
  - cbn [value]. intros Hin. unfold fresh in Hfr. rewrite Forall_forall in Hfr.
    specialize (Hfr _ Hin). simpl in Hfr. lia.
Qed.

(** Wrappers are transparent.  For a target [T] that is not the dynamic
    type, a value held in a [GenericValue] or in a [GenericObject] converts
    exactly as the value it holds: same result, same flag, same effect on
    the state.  This holds in [convert] always; in [convert2] it holds when
    the wrapper type is not the target instance, nor of a kind the numeric
    and list rules take first. *)
Theorem wrappers_are_transparent (tW T : QiType) (a : Z) (mt : option QiType)
    (mv : Storage) (st : State) :
  tinfo T <> genericValueInfo ->
  (tinfo tW = genericValueInfo ->
     convert toValue fromValue infoString (Some tW) (At a (CValue mt mv)) T st
       = convert toValue fromValue infoString mt mv T st) /\
  (tinfo tW = genericObjectInfo ->
     convert toValue fromValue infoString (Some tW) (At a (CObject mt mv)) T st
       = convert toValue fromValue infoString mt mv T st) /\
  (tptr tW <> tptr T ->
   kind tW <> Kind.Int -> kind tW <> Kind.Float -> kind tW <> Kind.List ->
   (tinfo tW = genericValueInfo ->
      convert2 (Some tW) (At a (CValue mt mv)) T st = convert2 mt mv T st) /\
   (tinfo tW = genericObjectInfo ->
      convert2 (Some tW) (At a (CObject mt mv)) T st = convert2 mt mv T st)).
Proof.
  intros HT.
  assert (E2 : (tinfo T =? genericValueInfo)%string = false) by (now apply String.eqb_neq).
  assert (E3 : tinfo tW = genericObjectInfo ->
               (tinfo tW =? genericValueInfo)%string = false).
  { intros HW. apply String.eqb_neq. rewrite HW. discriminate. }
  split; [|split].
  - intros HW. rewrite <- (String.eqb_eq (tinfo tW)) in HW.
    cbn -[inherits]. rewrite E2, HW. reflexivity.
  - intros HW. specialize (E3 HW). rewrite <- (String.eqb_eq (tinfo tW)) in HW.
    cbn -[inherits]. rewrite E2, E3, HW. reflexivity.
  - intros Hp Hi Hf Hl.
    assert (E1 : (tptr tW =? tptr T) = false) by (now apply Z.eqb_neq).
    split; intros HW.
    + rewrite <- (String.eqb_eq (tinfo tW)) in HW.
      cbn -[inherits]. rewrite E1. cbn -[inherits].
      destruct (kind tW) eqn:Hk; try congruence;
        destruct (kind T) eqn:HkT; cbn -[inherits]; rewrite ?E2, ?HW; reflexivity.
    + specialize (E3 HW). rewrite <- (String.eqb_eq (tinfo tW)) in HW.
      cbn -[inherits]. rewrite E1. cbn -[inherits].
      destruct (kind tW) eqn:Hk; try congruence;
        destruct (kind T) eqn:HkT; cbn -[inherits]; rewrite ?E2, ?E3, ?HW; reflexivity.
Qed.

(** The dynamic type as target.  [convert] always returns a newly
    allocated [GenericValue] that holds the pair of the source, with the
    flag [false], also when the source is of the dynamic type already.
    [convert2] returns the source itself, and allocates nothing, when
    source and target are the same [Type] instance; for another instance
    it returns the same new wrapper as [convert]. *)
Theorem dynamic_target_wraps (ty : option QiType) (v : Storage) (T : QiType) (st : State) :
  tinfo T = genericValueInfo ->
  convert toValue fromValue infoString ty v T st
    = Ok (GV (Some T) (At (next st) (CValue ty v)), false) (allocated st) /\
  (forall t, ty = Some t -> tptr t = tptr T ->
     convert2 ty v T st = Ok (GV ty v, false) st) /\
  (forall t, ty = Some t -> tptr t <> tptr T -> kind T = Kind.Dynamic ->
     convert2 ty v T st
       = Ok (GV (Some T) (At (next st) (CValue ty v)), false) (allocated st)).
Proof.
  intros HT.
  assert (E : (tinfo T =? genericValueInfo)%string = true) by (now apply String.eqb_eq).
  split; [now apply convert_dynamic_target|]. split.
  - intros t -> Hp. apply Z.eqb_eq in Hp.
    destruct v as [|a c]; cbn; rewrite Hp; reflexivity.
  - intros t -> Hp Hk. apply Z.eqb_neq in Hp.
    destruct v as [|a c]; cbn -[inherits]; rewrite Hp, Hk; cbn -[inherits];
      rewrite ?andb_false_r;
      destruct (kind t) eqn:Hkt; cbn -[inherits]; rewrite ?E; reflexivity.
Qed.

End ConvertResults.

Lemma wrappers_are_transparent_witness :
  convert toValue_invalid fromValue_zero tinfo (Some tDynamic)
    (At 100 (CValue (Some tInt32) (At 11 (CInt 1)))) tFloat st0
  = convert toValue_invalid fromValue_zero tinfo (Some tInt32) (At 11 (CInt 1)) tFloat st0.
Proof.
  refine (proj1 (wrappers_are_transparent toValue_invalid fromValue_zero tinfo
                   tDynamic tFloat 100 (Some tInt32) (At 11 (CInt 1)) st0 _) eq_refl).
  discriminate.
Defined.

Lemma dynamic_target_wraps_witness :
  convert toValue_invalid fromValue_zero tinfo (Some tDynamic)
    (At 20 (CValue (Some tInt32) (At 21 (CInt 7)))) tDynamic st0
  = Ok (GV (Some tDynamic)
          (At (next st0) (CValue (Some tDynamic) (At 20 (CValue (Some tInt32) (At 21 (CInt 7)))))),
        false) (allocated st0).
Proof.
  refine (proj1 (dynamic_target_wraps toValue_invalid fromValue_zero tinfo (Some tDynamic)
                   (At 20 (CValue (Some tInt32) (At 21 (CInt 7)))) tDynamic st0 _)).
  reflexivity.
Defined.

Lemma convert_result_type_witness :
  exists t, type (GV (Some tInt32) (At 100 (CInt 0))) = Some t /\
            tinfo t = tinfo tInt32 /\ (true = true -> t = tInt32).
Proof.
  apply (convert_result_type toValue_invalid fromValue_zero tinfo
           (Some tString) (At 20 (CString "abc")) tInt32 st0
           (GV (Some tInt32) (At 100 (CInt 0))) true
           (MkState 101 ({[ 100 ]} ∪ ∅) ["Cast error std::string -> int"])).
  reflexivity.
Defined.

Lemma convert_idempotent_witness :
  convert toValue_invalid fromValue_zero tinfo (Some tInt32) (At 100 (CInt 0)) tInt32
    (MkState 101 ({[ 100 ]} ∪ ∅) ["Cast error std::string -> int"])
  = Ok (GV (Some tInt32) (At 100 (CInt 0)), false)
       (MkState 101 ({[ 100 ]} ∪ ∅) ["Cast error std::string -> int"]).
Proof.
  apply (convert_idempotent toValue_invalid fromValue_zero tinfo
           (Some tString) (At 20 (CString "abc")) tInt32 st0
           (GV (Some tInt32) (At 100 (CInt 0))) true
           (MkState 101 ({[ 100 ]} ∪ ∅) ["Cast error std::string -> int"])).
  - discriminate.
  - discriminate.
  - reflexivity.
Defined.

Lemma dynamic_round_trip_witness :
  convert2 (Some tDynamic) (At 100 (CValue (Some tInt32) (At 11 (CInt 1)))) tInt32
    (allocated st0)
  = Ok (GV (Some tInt32) (At 11 (CInt 1)), false) (allocated st0).
Proof.
  refine (proj1 (proj2 (dynamic_round_trip toValue_invalid fromValue_zero tinfo
                          tInt32 tDynamic (At 11 (CInt 1)) st0 eq_refl eq_refl _ _ _))).
  - discriminate.
  - discriminate.
  - simpl. lia.
Defined.

Lemma convertCopy_never_a_view_witness :
  exists c o st1,
    convert toValue_invalid fromValue_zero tinfo (Some tDerived) derivedObject tBase st0
      = Ok (c, o) st1 /\
    type (GV (Some tBase) (At 100 (CStruct (shiftMem 8 (<[0 := 11]> (<[4 := 22]>
            (<[8 := 33]> (<[12 := 44]> ∅)))))))) = type c /\
    (o = true ->
       GV (Some tBase) (At 100 (CStruct (shiftMem 8 (<[0 := 11]> (<[4 := 22]>
            (<[8 := 33]> (<[12 := 44]> ∅))))))) = c /\ allocated st0 = st1) /\
    (o = false ->
       cloned (value c) st1
         (value (GV (Some tBase) (At 100 (CStruct (shiftMem 8 (<[0 := 11]> (<[4 := 22]>
            (<[8 := 33]> (<[12 := 44]> ∅)))))))))
         (allocated st0)).
Proof.
  apply (convertCopy_never_a_view toValue_invalid fromValue_zero tinfo
           (GV (Some tDerived) derivedObject) tBase st0).
  reflexivity.
Defined.

Lemma convertCopy_dynamic_leaks_wrapper_witness :
  exists r st',
    convertCopy toValue_invalid fromValue_zero tinfo (GV (Some tInt32) (At 11 (CInt 1)))
      tDynamic st0 = Ok r st' /\
    type r = Some tDynamic /\
    dataOf (value r) = DValue (Some tInt32) (dataOf (At 11 (CInt 1))) /\
    next st0 ∈ live st' /\
    next st0 ∉ addrs (value r).
Proof.
  apply (convertCopy_dynamic_leaks_wrapper toValue_invalid fromValue_zero tinfo
           tInt32 tDynamic (At 11 (CInt 1)) st0).
  - reflexivity.
  - reflexivity.
Defined.

(** *** Numeric conversions *)

(** Narrowing to 64 bits and then to [bits <= 64] bits is narrowing to
    [bits] bits. *)
Lemma wrapInt_wrap64 (bits : Z) (signed : bool) (z : Z) :
  0 < bits <= 64 -> wrapInt bits signed (wrapInt 64 true z) = wrapInt bits signed z.
Proof.
  intros Hb. unfold wrapInt.
  assert (H64 : 2 ^ 64 = 2 ^ bits * 2 ^ (64 - bits)).
  { rewrite <- Z.pow_add_r by lia. f_equal. lia. }
  assert (Hpos : 0 < 2 ^ bits) by (apply Z.pow_pos_nonneg; lia).
  assert (Hpos' : 0 < 2 ^ (64 - bits)) by (apply Z.pow_pos_nonneg; lia).
  set (w := (z + 2 ^ (64 - 1)) mod 2 ^ 64 - 2 ^ (64 - 1)).
  assert (Hw : exists k, w = z + k * 2 ^ bits).
  { unfold w. rewrite (Z.mod_eq (z + 2 ^ (64 - 1)) (2 ^ 64)) by lia.
    exists (- (2 ^ (64 - bits) * ((z + 2 ^ (64 - 1)) / 2 ^ 64))). rewrite H64 at 1. lia. }
  destruct Hw as [k ->].
  destruct signed.
  - replace (z + k * 2 ^ bits + 2 ^ (bits - 1)) with (z + 2 ^ (bits - 1) + k * 2 ^ bits) by lia.
    now rewrite Z.mod_add by lia.
  - now rewrite Z.mod_add by lia.
Qed.

(** Between two integer types [convert2] allocates the target storage and
    stores the source number narrowed to the width of the target: reduced
    modulo [2^bits] into the range of the target, hence unchanged when the
    target type can hold it.  The passage through [int64_t] loses
    nothing. *)
Theorem convert2_int_to_int (sT tT : QiType) (bits : Z) (signed : bool) (a z : Z)
    (st : State) :
  kind sT = Kind.Int ->
  tshape tT = ShInt bits signed ->
  tptr sT <> tptr tT ->
  0 < bits <= 64 ->
  convert2 (Some sT) (At a (CInt z)) tT st =
    Ok (GV (Some tT) (At (next st) (CInt (wrapInt bits signed z))), true) (allocated st) /\
  (inRange bits signed z -> wrapInt bits signed z = z).
Proof.
  intros Hs Ht Hp Hb.
  assert (E1 : (tptr sT =? tptr tT) = false) by (now apply Z.eqb_neq).
  assert (Hk : kind tT = Kind.Int) by (unfold kind; now rewrite Ht).
  split.
  - cbn -[wrapInt]. rewrite E1, Hs, Hk. cbn -[wrapInt].
    unfold initializeStorage, alloc, TypeInt_set, bind, ret. rewrite Ht.
    cbn -[wrapInt]. rewrite wrapInt_wrap64 by exact Hb. reflexivity.
  - apply wrapInt_inRange. lia.
Qed.

Lemma convert2_int_to_int_witness :
  convert2 (Some tInt32) (At 11 (CInt 300)) tUInt8 st0
    = Ok (GV (Some tUInt8) (At 100 (CInt 44)), true) (allocated st0).
Proof.
  refine (proj1 (convert2_int_to_int tInt32 tUInt8 8 false 11 300 st0 eq_refl eq_refl _ _)).
  - simpl. lia.
  - lia.
Defined.

Lemma digits_boundary (p : Z) : 1 <= p -> digits (2 ^ p + 1) = p + 1.
Proof.
  intros Hp. unfold digits.
  assert (H2 : 2 <= 2 ^ p).
  { change 2 with (2 ^ 1) at 1. apply Z.pow_le_mono_r; lia. }
  destruct (2 ^ p + 1 =? 0) eqn:E; [lia|].
  rewrite Z.abs_eq by lia.
  rewrite (Z.log2_unique (2 ^ p + 1) p); [reflexivity|lia|].
  rewrite Z.pow_succ_r by lia. lia.
Qed.

(** [2^p + 1] lies halfway between two numbers of [p] significant bits and
    is rounded to the even one, [2^p]. *)
Lemma boundary_rounds_down (p : Z) :
  2 <= p <= 52 ->
  roundFlt p (int64_to_double (2 ^ p + 1)) = MkFlt (2 ^ (p - 1)) 1.
Proof.
  intros Hp. unfold int64_to_double.
  assert (Hpow : 2 ^ p = 2 * 2 ^ (p - 1)).
  { replace p with (1 + (p - 1)) at 1 by lia. rewrite Z.pow_add_r by lia. reflexivity. }
  assert (Hpos : 0 < 2 ^ (p - 1)) by (apply Z.pow_pos_nonneg; lia).
  assert (R53 : roundFlt 53 (MkFlt (2 ^ p + 1) 0) = MkFlt (2 ^ p + 1) 0).
  { unfold roundFlt. cbn [fm fe]. rewrite digits_boundary by lia.
    destruct (p + 1 - 53 <=? 0) eqn:E; [reflexivity|lia]. }
  rewrite R53. unfold roundFlt. cbn [fm fe]. rewrite digits_boundary by lia.
  replace (p + 1 - p) with 1 by lia. cbn [Z.leb Z.compare].
  unfold rne. change (2 ^ (1 - 1)) with 1. change (2 ^ 1) with 2.
  assert (Hq : (2 ^ p + 1) / 2 = 2 ^ (p - 1)).
  { rewrite Hpow. rewrite Z.mul_comm, Z.div_add_l by lia. change (1 / 2) with 0. lia. }
  assert (Hr : (2 ^ p + 1) mod 2 = 1).
  { rewrite Hpow. rewrite Z.mul_comm, Z.add_comm, Z.mod_add by lia. reflexivity. }
  assert (Hev : Z.even (2 ^ (p - 1)) = true).
  { replace (p - 1) with (1 + (p - 2)) by lia. rewrite Z.pow_add_r by lia.
    rewrite Z.even_mul. reflexivity. }
  cbv zeta. rewrite Hq, Hr, Hev. reflexivity.
Qed.

(** The truncation boundary of [Int -> Float -> Int].  The first positive
    integer that a floating-point type of [p] significant bits cannot hold,
    [2^p + 1], is stored as [2^p], and [2^p] is what comes back, in any
    integer type wide enough for it. *)
Theorem int_float_truncation_boundary (tI tF : QiType) (bits : Z) (signed : bool) (p a : Z)
    (st : State) :
  tshape tI = ShInt bits signed -> tshape tF = ShFloat p ->
  tptr tI <> tptr tF ->
  2 <= p <= 52 -> p + 2 <= bits <= 64 ->
  exists f st1 st2,
    convert2 (Some tI) (At a (CInt (2 ^ p + 1))) tF st
      = Ok (GV (Some tF) (At (next st) (CFloat f)), true) st1 /\
    convert2 (Some tF) (At (next st) (CFloat f)) tI st1
      = Ok (GV (Some tI) (At (next st1) (CInt (2 ^ p))), true) st2.
Proof.
  intros HI HF Hptr Hp Hb.
  destruct tI as [pI iI sI], tF as [pF iF sF]. simpl in HI, HF, Hptr. subst sI sF.
  assert (E1 : (pI =? pF) = false) by (apply Z.eqb_neq; exact Hptr).
  assert (E2 : (pF =? pI) = false) by (apply Z.eqb_neq; congruence).
  assert (Hlo : 4 <= 2 ^ p).
  { change 4 with (2 ^ 2). apply Z.pow_le_mono_r; lia. }
  assert (Hhi : 2 ^ p < 2 ^ (bits - 1) /\ 2 ^ (bits - 1) <= 2 ^ 63).
  { split; [apply Z.pow_lt_mono_r; lia|apply Z.pow_le_mono_r; lia]. }
  assert (H52 : 2 ^ p <= 2 ^ 52) by (apply Z.pow_le_mono_r; lia).
  assert (Hr64 : wrapInt 64 true (2 ^ p + 1) = 2 ^ p + 1).
  { apply wrapInt_inRange; [lia|]. unfold inRange. change (64 - 1) with 63. lia. }
  assert (Hback : double_to_int64 (MkFlt (2 ^ (p - 1)) 1) = Some (2 ^ p)).
  { unfold double_to_int64. cbn [fm fe]. cbn [Z.leb Z.compare].
    replace (2 ^ (p - 1) * 2 ^ 1) with (2 ^ p).
    2:{ rewrite <- Z.pow_add_r by lia. f_equal. lia. }
    destruct (- 2 ^ 63 <=? 2 ^ p) eqn:E3; [|lia].
    destruct (2 ^ p <? 2 ^ 63) eqn:E4; [reflexivity|lia]. }
  exists (MkFlt (2 ^ (p - 1)) 1). eexists. eexists. split.
  - cbn -[wrapInt roundFlt int64_to_double Z.pow]. rewrite E1.
    cbn -[wrapInt roundFlt int64_to_double Z.pow].
    unfold bind, initializeStorage, alloc, TypeFloat_set, ret.
    cbn -[wrapInt roundFlt int64_to_double Z.pow].
    rewrite Hr64, boundary_rounds_down by lia. reflexivity.
  - cbn -[wrapInt roundFlt int64_to_double double_to_int64 Z.pow]. rewrite E2.
    cbn -[wrapInt roundFlt int64_to_double double_to_int64 Z.pow].
    unfold bind, initializeStorage, alloc, TypeInt_set, ret.
    cbn -[wrapInt roundFlt int64_to_double double_to_int64 Z.pow].
    rewrite Hback. cbn -[wrapInt Z.pow].
    rewrite (wrapInt_inRange bits signed (2 ^ p)); [reflexivity|lia|].
    unfold inRange. destruct signed; [lia|].
    assert (2 ^ (bits - 1) <= 2 ^ bits) by (apply Z.pow_le_mono_r; lia). lia.
Qed.

Lemma int_float_truncation_boundary_witness :
  exists f st1 st2,
    convert2 (Some tInt32) (At 11 (CInt (2 ^ 24 + 1))) tFloat st0
      = Ok (GV (Some tFloat) (At (next st0) (CFloat f)), true) st1 /\
    convert2 (Some tFloat) (At (next st0) (CFloat f)) tInt32 st1
      = Ok (GV (Some tInt32) (At (next st1) (CInt (2 ^ 24))), true) st2.
Proof.
  apply (int_float_truncation_boundary tInt32 tFloat 32 true 24 11 st0 eq_refl eq_refl).
  - simpl. lia.
  - lia.
  - lia.
Defined.

(** *** The C bindings *)

(** For a signature the meta-object knows, [qi_object_call] returns a
    future and does not fault; the future carries the error of [xMetaCall]
    unchanged, or a message that holds the result buffer of [xMetaCall]. *)
Theorem qi_object_call_delivers
    (xMetaCall : GenericObject -> string -> string -> Buffer -> Future Buffer)
    (obj : GenericObject) (sig : string) (message : qi_message_t) (id : Z) (mm : MetaMethod) :
  methodsNameToIdx (metaObject obj) !! sig = Some id ->
  methods (metaObject obj) !! id = Some mm ->
  exists fut,
    qi_object_call xMetaCall obj sig message = Returned fut /\
    match xMetaCall obj (sigreturn mm) sig (buff message) with
    | FutureError e => fut = FutureError e
    | FutureValue v => fut = FutureValue (Message v)
    end.
Proof.
  intros Hid Hmm. eexists. split.
  - apply qi_object_call_found. unfold methodId, method. rewrite Hid. exact Hmm.
  - destruct (xMetaCall _ _ _ _); reflexivity.
Qed.

Lemma qi_object_call_delivers_witness :
  exists fut,
    qi_object_call xMetaCall_spec echoObject "echo::(s)" (Message [1; 2; 3]) = Returned fut /\
    match xMetaCall_spec echoObject "s" "echo::(s)" [1; 2; 3] with
    | FutureError e => fut = FutureError e
    | FutureValue v => fut = FutureValue (Message v)
    end.
Proof.
  apply (qi_object_call_delivers xMetaCall_spec echoObject "echo::(s)" (Message [1; 2; 3])
           0 (MkMetaMethod 0 "s" "echo::(s)")).
  - reflexivity.
  - reflexivity.
Defined.

(** What [qi_object_builder_register_method] registers, for a complete
    signature that splits into return signature, name and parameters: the
    method [name::parameters] with the return signature given apart, bound
    to a callable that hands the foreign function the complete signature as
    it was registered, the parameters of the call and [data], and answers
    with an empty buffer when the function pointer is null.  The value
    returned is 0. *)
Theorem register_method_binds
    (signatureSplit : string -> list string)
    (xAdvertiseMethod : string -> string -> MetaFunction -> GenericObject -> Z * GenericObject)
    (ob : GenericObject) (cs : string) (func : option qi_object_method_t) (data : Z)
    (s0 s1 s2 : string) (rest : list string) :
  signatureSplit cs = s0 :: s1 :: s2 :: rest ->
  exists F,
    qi_object_builder_register_method signatureSplit xAdvertiseMethod ob cs func data
      = Returned (0, snd (xAdvertiseMethod s0 (s1 +:+ "::" +:+ s2) F ob)) /\
    forall params,
      apply_functor F params =
      Some (match func with Some f => f cs params data | None => [] end).
Proof.
  intros Hs. exists (BoundCCall cs func data). split.
  - unfold qi_object_builder_register_method. rewrite Hs. cbn [lookup list_lookup].
    destruct (xAdvertiseMethod _ _ _ _). reflexivity.
  - intros params. destruct func; reflexivity.
Qed.

Lemma register_method_binds_witness :
  exists F,
    qi_object_builder_register_method splitEcho xAdvertiseMethod_spec emptyObject
      "echo::s(s)" (Some echo) 0
      = Returned (0, snd (xAdvertiseMethod_spec "s" ("echo" +:+ "::" +:+ "(s)") F emptyObject)) /\
    forall params, apply_functor F params = Some (echo "echo::s(s)" params 0).
Proof.
  apply (register_method_binds splitEcho xAdvertiseMethod_spec emptyObject "echo::s(s)"
           (Some echo) 0 "s" "echo" "(s)" []).
  reflexivity.
Defined.

(** Registration followed by a call.  With a builder that records methods
    as the meta-object describes, a foreign function registered under the
    complete signature [name::ret(params)] is reached by [qi_object_call]
    under [name::(params)]: the call returns a future whose value is a
    message holding what the function answered to the buffer of the call
    (the empty buffer for a null function pointer). *)
Theorem register_then_call (signatureSplit : string -> list string)
    (ob : GenericObject) (cs r n p : string) (rest : list string)
    (func : option qi_object_method_t) (data : Z) (message : qi_message_t) :
  signatureSplit cs = r :: n :: p :: rest ->
  methodsNameToIdx (metaObject ob) !! (n +:+ "::" +:+ p) = None ->
  exists ob',
    qi_object_builder_register_method signatureSplit xAdvertiseMethod_spec ob cs func data
      = Returned (0, ob') /\
    qi_object_call xMetaCall_spec (qi_object_builder_get_object ob') (n +:+ "::" +:+ p) message
      = Returned (FutureValue
          (Message (match func with Some f => f cs (buff message) data | None => [] end))).
Proof.
  intros Hs Hnew. eexists. split.
  - unfold qi_object_builder_register_method. rewrite Hs. cbn [lookup list_lookup].
    unfold xAdvertiseMethod_spec. rewrite Hnew. reflexivity.
  - unfold qi_object_builder_get_object, qi_object_call, methodId, method, xMetaCall_spec.
    cbn [metaObject methodsNameToIdx methods functors].
    rewrite !lookup_insert_eq. cbn [default sigreturn apply_functor qiFutureCAdapter].
    destruct func; reflexivity.
Qed.

Lemma register_then_call_witness :
  exists ob',
    qi_object_builder_register_method splitEcho xAdvertiseMethod_spec emptyObject
      "echo::s(s)" (Some echo) 0 = Returned (0, ob') /\
    qi_object_call xMetaCall_spec (qi_object_builder_get_object ob')
      ("echo" +:+ "::" +:+ "(s)") (Message [97; 98; 99])
      = Returned (FutureValue (Message (echo "echo::s(s)" (buff (Message [97; 98; 99])) 0))).
Proof.
  apply (register_then_call splitEcho emptyObject "echo::s(s)" "s" "echo" "(s)" []
           (Some echo) 0 (Message [97; 98; 99])).
  - reflexivity.
  - reflexivity.
Defined.

(** *** Signature derivation *)

(** [advertiseEvent] derives the same envelope as [advertiseMethod],
    passes it to [xAdvertiseEvent] and returns the answer as an
    [unsigned int]: an answer of [-1] comes back as [4294967295]. *)
Theorem advertiseEvent_derives_signature
    (signatureOf : Cxx.type -> string) (B : Type)
    (xAdvertiseEvent : string -> B -> Z * B)
    (eventName : string) (function : Cxx.function_type) (b : B) :
  advertiseEvent signatureOf B xAdvertiseEvent eventName function b =
  advertised
    (xAdvertiseEvent (envelope signatureOf eventName (Cxx.parameter_types function)) b) /\
  (fst (xAdvertiseEvent (envelope signatureOf eventName (Cxx.parameter_types function)) b)
     = -1 ->
   fst (advertiseEvent signatureOf B xAdvertiseEvent eventName function b) = 4294967295).
Proof.
  assert (E : advertiseEvent signatureOf B xAdvertiseEvent eventName function b =
              advertised (xAdvertiseEvent
                (envelope signatureOf eventName (Cxx.parameter_types function)) b)).
  { unfold advertiseEvent, advertised, envelope.
    rewrite for_each_tokens. now rewrite !append_assoc. }
  split; [exact E|].
  intros H. rewrite E. unfold advertised. cbn [fst]. rewrite H. reflexivity.
Qed.

(** Two callables of the same name whose parameter types agree once
    references and top-level [const] are removed, and whose return types
    are the same, are advertised with the same return signature and the
    same signature: [f(int)] and [f(const int&)] cannot be told apart by
    what is registered. *)
Theorem advertiseMethod_ignores_qualifiers
    (signatureOf : Cxx.type -> string) (B : Type)
    (x : string -> string -> B -> Z * B)
    (name : string) (f g : Cxx.function_type) (b : B) :
  map Cxx.unqualify (Cxx.parameter_types f) = map Cxx.unqualify (Cxx.parameter_types g) ->
  Cxx.result_type f = Cxx.result_type g ->
  advertiseMethod signatureOf B (fun sigret sig _ => x sigret sig) name f b =
  advertiseMethod signatureOf B (fun sigret sig _ => x sigret sig) name g b.
Proof.
  intros Hp Hr. unfold advertiseMethod. rewrite !for_each_tokens, Hr.
  replace (map (fun P => signatureOf (Cxx.unqualify P)) (Cxx.parameter_types f))
    with (map signatureOf (map Cxx.unqualify (Cxx.parameter_types f)))
    by (now rewrite map_map).
  rewrite Hp, map_map. reflexivity.
Qed.

Lemma advertiseMethod_ignores_qualifiers_witness :
  advertiseMethod (fun _ => "i") (list (string * string))
    (fun sigret sig _ b => (0, (sigret, sig) :: b)) "f"
    (Cxx.Fn (Cxx.Named "void") [Cxx.Named "int"]) [] =
  advertiseMethod (fun _ => "i") (list (string * string))
    (fun sigret sig _ b => (0, (sigret, sig) :: b)) "f"
    (Cxx.Fn (Cxx.Named "void") [Cxx.Ref (Cxx.Const (Cxx.Named "int"))]) [].
Proof.
  apply (advertiseMethod_ignores_qualifiers (fun _ => "i") (list (string * string))
           (fun sigret sig b => (0, (sigret, sig) :: b)) "f"
           (Cxx.Fn (Cxx.Named "void") [Cxx.Named "int"])
           (Cxx.Fn (Cxx.Named "void") [Cxx.Ref (Cxx.Const (Cxx.Named "int"))]) []).
  - reflexivity.
  - reflexivity.
Defined.

(** *** The service of the messaging test *)

(** What the service answers: [echo] returns its first argument unchanged
    and [size] the length of its first argument as an [int], which is the
    length itself below [2^31]; further arguments are ignored. *)
Theorem onMessage_replies (s : string) (more : list Messaging.VariableValue) :
  Messaging.onMessage (Messaging.Call "echo" (Messaging.Str s :: more))
    = Returned (Messaging.Result (Messaging.Str s)) /\
  Messaging.onMessage (Messaging.Call "size" (Messaging.Str s :: more))
    = Returned (Messaging.Result (Messaging.Int (Messaging.size s))) /\
  (Z.of_nat (String.length s) < 2 ^ 31 -> Messaging.size s = Z.of_nat (String.length s)).
Proof.
  split; [reflexivity|]. split; [reflexivity|].
  intros H. unfold Messaging.size. apply wrapInt_inRange; [lia|]. unfold inRange. lia.
Qed.

(** A method that is neither [size] nor [echo] ([ping], or a name the
    service does not know) is answered with an empty result, whatever the
    arguments: an unknown method is no error. *)
Theorem onMessage_other_methods (def : Messaging.CallDefinition) :
  Messaging.methodName def <> "size" -> Messaging.methodName def <> "echo" ->
  Messaging.onMessage def = Returned (Messaging.Result Messaging.Empty).
Proof.
  intros H1 H2. unfold Messaging.onMessage.
  apply String.eqb_neq in H1, H2. rewrite H1, H2.
  destruct (String.eqb (Messaging.methodName def) "ping"); reflexivity.
Qed.

Lemma onMessage_other_methods_witness :
  Messaging.onMessage (Messaging.Call "ping" []) = Returned (Messaging.Result Messaging.Empty).
Proof.
  apply (onMessage_other_methods (Messaging.Call "ping" [])).
  - discriminate.
  - discriminate.
Defined.

(** [size] and [echo] read the first argument without checking that there
    is one: called with no argument they apply [front()] to an empty
    list. *)
Theorem onMessage_missing_argument (name : string) :
  name = "size" \/ name = "echo" ->
  Messaging.onMessage (Messaging.Call name [])
    = Crashed "front(): the argument list is empty".
Proof. intros [->| ->]; reflexivity. Qed.

Lemma onMessage_missing_argument_witness :
  Messaging.onMessage (Messaging.Call "size" []) = Crashed "front(): the argument list is empty".
Proof.
  apply (onMessage_missing_argument "size"). left. reflexivity.
Defined.

Lemma for_returns (n : nat) (body : nat -> Outcome unit) :
  (forall i, (i < n)%nat -> body i = Returned tt) -> Messaging.for_ n body = Returned tt.
Proof.
  unfold Messaging.for_. intros H.
  assert (G : forall l, (forall i, In i l -> body i = Returned tt) ->
            fold_right (fun i rest => andThen (body i) (fun _ => rest)) (Returned tt) l
            = Returned tt).
  { induction l as [|i l IH]; intros Hl; simpl; [reflexivity|].
    rewrite (Hl i) by now left. simpl. apply IH. intros j Hj. apply Hl. now right. }
  apply G. intros i Hi. apply in_seq in Hi. apply H. lia.
Qed.

Lemma andThen_returns {A B} (o : Outcome A) (a : A) (k : A -> Outcome B) (r : Outcome B) :
  o = Returned a -> k a = r -> andThen o k = r.
Proof. intros -> <-. reflexivity. Qed.

Lemma length_std_string (n : nat) (c : ascii) : String.length (Messaging.std_string n c) = n.
Proof. induction n as [|n IH]; simpl; [reflexivity|]. now rewrite IH. Qed.

(** The client and the service agree.  Run against [onMessage],
    [main_client] completes and returns 0: every reply it reads as an
    [int] holds an [int] and every reply it reads as a string holds a
    string.  The size the service reports for the request of round [i] is
    the [2^i] bytes the client made it of, and the echo is the request. *)
Theorem client_and_service_agree (clientId : Z) :
  Messaging.main_client Messaging.onMessage clientId = Returned 0 /\
  forall i, (i < 12)%nat ->
    let request := Messaging.std_string (Messaging.numBytes i) "B"%char in
    Messaging.onMessage (Messaging.Call "size" [Messaging.Str request])
      = Returned (Messaging.Result (Messaging.Int (2 ^ Z.of_nat i))) /\
    Messaging.onMessage (Messaging.Call "echo" [Messaging.Str request])
      = Returned (Messaging.Result (Messaging.Str request)).
Proof.
  split.
  - unfold Messaging.main_client.
    apply (andThen_returns _ tt).
    { apply for_returns. intros j _. reflexivity. }
    apply (andThen_returns _ tt).
    { apply for_returns. intros i _. apply for_returns. intros j _. reflexivity. }
    apply (andThen_returns _ tt).
    { apply for_returns. intros i _. apply for_returns. intros j _. reflexivity. }
    reflexivity.
  - intros i Hi request. split; [|reflexivity].
    change (Returned (Messaging.Result (Messaging.Int (Messaging.size request)))
            = Returned (Messaging.Result (Messaging.Int (2 ^ Z.of_nat i)))).
    do 3 f_equal. unfold Messaging.size, request.
    rewrite length_std_string. unfold Messaging.numBytes.
    rewrite Nat2Z.inj_pow. change (Z.of_nat 2) with 2.
    apply wrapInt_inRange; [lia|]. unfold inRange.
    assert (0 < 2 ^ Z.of_nat i) by (apply Z.pow_pos_nonneg; lia).
    assert (2 ^ Z.of_nat i <= 2 ^ 11) by (apply Z.pow_le_mono_r; lia).
    lia.
Qed.
